(** * Agrawal stream generator and naive-Bayes posterior: a verification development

    Two Python modules are embedded:

    - [creme/datasets/synth/agrawal.py]: class [Agrawal] (module [Agrawal] below);
    - [river/tree/_tree_utils.py]: [do_naive_bayes_prediction] (module [NaiveBayes]).

    Python floats are idealised: the generator computes over exact rationals
    ([Q], so that concrete runs evaluate), the estimator over the reals ([R],
    for [math.log] and [math.exp]).  Rounding error, overflow, NaN and
    infinities are outside these two models; where a bound of the generator
    is decided by rounding, the formula is also evaluated in binary64
    (module [Binary64]).  Python integers are [Z]. *)

From Stdlib Require Import Reals Lra.
From Stdlib Require Import Floats.
From Stdlib Require Import ZArith QArith Qround Bool List Lia Lqa.
Import ListNotations.

(** ** Outcomes of Python calls

    A call returns, raises, or loops forever.  Loops without a bound in the
    source ([while not desired_class_found], [while new_function == ...]) are
    run with fuel; [Diverge] is the outcome of a run whose fuel is exhausted. *)

Inductive exn : Type := ValueError | IndexError.

Inductive outcome (A : Type) : Type :=
| Ret (a : A)
| Raise (e : exn)
| Diverge.

Arguments Ret {A} a.
Arguments Raise {A} e.
Arguments Diverge {A}.

Definition bind {A B : Type} (c : outcome A) (k : A -> outcome B) : outcome B :=
  match c with
  | Ret a => k a
  | Raise e => Raise e
  | Diverge => Diverge
  end.

Notation "'do' x <- c ; k" := (bind c (fun x => k))
  (at level 61, x pattern, c at next level, right associativity).

Definition raises {A : Type} (c : outcome A) : Prop := exists e, c = Raise e.

(** ** The pseudorandom source

    [numpy.random.RandomState] is outside the repository.  The generator uses
    two of its methods: [rand()], a real in [0, 1), and [randint(n)], an
    integer in [0, n).  Each call also advances the source, so both return the
    new source with the value.

    The contract assumed of a source is the ranges of the two methods,
    nothing else: a source may return the same value again and again. *)

Class RandomState (G : Type) : Type := {
  rand : G -> Q * G;
  randint : Z -> G -> Z * G;
  rand_range : forall g, 0 <= fst (rand g) /\ fst (rand g) < 1;
  randint_range : forall n g, (0 < n)%Z -> (0 <= fst (randint n g) < n)%Z
}.

(** A scripted source, used to run the generator on chosen draws: the state is
    the list of raw integers still to be served.  [rand] serves the head in
    thousandths, [randint n] serves it modulo [n]; an exhausted script serves
    0 and restarts as the script [[1]], so that it goes on with 1, 0, 1, ... *)

Definition tape_rand (t : list Z) : Q * list Z :=
  match t with
  | [] => (0, [1%Z])
  | h :: t' => (Qmake (h mod 1000) 1000, t')
  end.

Definition tape_randint (n : Z) (t : list Z) : Z * list Z :=
  match t with
  | [] => (0%Z, [1%Z])
  | h :: t' => ((h mod n)%Z, t')
  end.

Lemma tape_rand_range (t : list Z) :
  0 <= fst (tape_rand t) /\ fst (tape_rand t) < 1.
Proof.
  destruct t as [|h t']; cbn [tape_rand fst].
  - split; [apply Qle_refl | reflexivity].
  - pose proof (Z.mod_pos_bound h 1000 eq_refl) as Hb.
    unfold Qle, Qlt; cbn; lia.
Qed.

Lemma tape_randint_range (n : Z) (t : list Z) :
  (0 < n)%Z -> (0 <= fst (tape_randint n t) < n)%Z.
Proof.
  intros Hn. destruct t as [|h t']; cbn [tape_randint fst].
  - lia.
  - apply Z.mod_pos_bound; exact Hn.
Qed.

#[export] Instance Tape : RandomState (list Z) := {
  rand := tape_rand;
  randint := tape_randint;
  rand_range := tape_rand_range;
  randint_range := tape_randint_range
}.

(** A source that is stuck: every draw is 0. *)
#[export] Instance Stuck : RandomState unit := {
  rand := fun g => (0, g);
  randint := fun _ g => (0%Z, g);
  rand_range := fun _ => conj (Qle_refl 0) (eq_refl : 0 < 1);
  randint_range := fun n _ Hn => conj (Z.le_refl 0) Hn
}.

(** Comparisons on rationals, as booleans. *)

Definition Qltb (x y : Q) : bool := negb (Qle_bool y x).

Lemma Qltb_lt (x y : Q) : Qltb x y = true <-> x < y.
Proof.
  unfold Qltb. rewrite negb_true_iff.
  split; intros H.
  - apply Qnot_le_lt. intros Hle. apply Qle_bool_iff in Hle. congruence.
  - destruct (Qle_bool y x) eqn:E; [|reflexivity].
    apply Qle_bool_iff in E. exfalso. exact (Qlt_not_le _ _ H E).
Qed.

Lemma Qltb_ge (x y : Q) : Qltb x y = false <-> y <= x.
Proof.
  unfold Qltb. rewrite negb_false_iff. apply Qle_bool_iff.
Qed.

(** * Lines 128 to 136 in binary64

    The four real-valued draws as Python computes them, in IEEE 754 binary64
    with rounding to nearest.  [rand()] returns a multiple of [2 ^ -53] in
    [0, 1); the largest is [1 - 2 ^ -53]. *)

Module Binary64.

Local Open Scope float_scope.

Definition largest_rand : float := 0x1.fffffffffffffp-1.

Definition of_Z (z : Z) : float := PrimFloat.of_uint63 (Uint63.of_Z z).

(** Line 128. *)
Definition salary (u : float) : float := 20000 + 130000 * u.

(** Line 129, the branch [salary < 75000]. *)
Definition commission (u : float) : float := 10000 + 75000 * u.

(** Line 134; [(9 - zipcode) * 100000] is computed on integers. *)
Definition hvalue (zipcode : Z) (u : float) : float :=
  of_Z ((9 - zipcode) * 100000) * (0.5 + u).

(** Line 136. *)
Definition loan (u : float) : float := u * 500000.

End Binary64.

(** * The Agrawal generator *)

Module Agrawal.

(** ** Classification functions

    The ten static methods [_classification_function_0] to [_9].  Arguments
    are the nine raw values in the source's order.  [int(b)] of a Python
    boolean is [Z.b2z b]. *)

Definition classifier : Type := Q -> Q -> Z -> Z -> Z -> Z -> Q -> Z -> Q -> Z.

Definition between (lo x hi : Q) : bool := Qle_bool lo x && Qle_bool x hi.

Definition _classification_function_0 : classifier :=
  fun salary commission age elevel car zipcode hvalue hyears loan =>
    Z.b2z ((age <? 40)%Z || (60 <=? age)%Z).

Definition _classification_function_1 : classifier :=
  fun salary commission age elevel car zipcode hvalue hyears loan =>
    if (age <? 40)%Z then Z.b2z (between 50000 salary 100000)
    else if (age <? 60)%Z then Z.b2z (between 75000 salary 125000)
    else Z.b2z (between 25000 salary 75000).

(** The last branch of function 2 is [int(a) or b]: when [int(a)] is 0 the
    value is the boolean [elevel == 4] itself.  A Python boolean is an
    integer ([True == 1], [False == 0]), so the label is kept as [Z]. *)

Definition _classification_function_2 : classifier :=
  fun salary commission age elevel car zipcode hvalue hyears loan =>
    if (age <? 40)%Z then Z.b2z ((elevel =? 0)%Z || (elevel =? 1)%Z)
    else if (age <? 60)%Z then
      Z.b2z ((elevel =? 1)%Z || (elevel =? 2)%Z || (elevel =? 3)%Z)
    else
      let i := Z.b2z ((elevel =? 2)%Z || (elevel =? 3)%Z) in
      if (i =? 0)%Z then Z.b2z (elevel =? 4)%Z else i.

Definition _classification_function_3 : classifier :=
  fun salary commission age elevel car zipcode hvalue hyears loan =>
    if (age <? 40)%Z then
      if (elevel =? 0)%Z || (elevel =? 1)%Z
      then Z.b2z (between 25000 salary 75000)
      else Z.b2z (between 50000 salary 100000)
    else if (age <? 60)%Z then
      if (elevel =? 1)%Z || (elevel =? 2)%Z || (elevel =? 3)%Z
      then Z.b2z (between 50000 salary 100000)
      else Z.b2z (between 75000 salary 125000)
    else
      if (elevel =? 2)%Z || (elevel =? 3)%Z || (elevel =? 4)%Z
      then Z.b2z (between 50000 salary 100000)
      else Z.b2z (between 25000 salary 75000).

Definition _classification_function_4 : classifier :=
  fun salary commission age elevel car zipcode hvalue hyears loan =>
    if (age <? 40)%Z then
      if between 50000 salary 100000
      then Z.b2z (Qle_bool 100000 loan && Qle_bool loan 300000)
      else Z.b2z (Qle_bool 200000 salary && Qle_bool salary 400000)
    else if (age <? 60)%Z then
      if between 75000 salary 125000
      then Z.b2z (Qle_bool 200000 salary && Qle_bool loan 400000)
      else Z.b2z (Qle_bool 300000 salary && Qle_bool salary 500000)
    else
      if between 25000 salary 75000
      then Z.b2z (Qle_bool 300000 loan && Qle_bool loan 500000)
      else Z.b2z (Qle_bool 75000 loan && Qle_bool loan 300000).

Definition _classification_function_5 : classifier :=
  fun salary commission age elevel car zipcode hvalue hyears loan =>
    let totalsalary := salary + commission in
    if (age <? 40)%Z then Z.b2z (between 50000 totalsalary 100000)
    else if (age <? 60)%Z then Z.b2z (between 75000 totalsalary 125000)
    else Z.b2z (between 25000 totalsalary 75000).

Definition _classification_function_6 : classifier :=
  fun salary commission age elevel car zipcode hvalue hyears loan =>
    let disposable := 2 * (salary + commission) / 3 - loan / 5 - 20000 in
    if Qltb 1 disposable then 0%Z else 1%Z.

Definition _classification_function_7 : classifier :=
  fun salary commission age elevel car zipcode hvalue hyears loan =>
    let disposable :=
      2 * (salary + commission) / 3 - 5000 * inject_Z elevel - 20000 in
    if Qltb 1 disposable then 0%Z else 1%Z.

Definition _classification_function_8 : classifier :=
  fun salary commission age elevel car zipcode hvalue hyears loan =>
    let disposable :=
      2 * (salary + commission) / 3 - 5000 * inject_Z elevel - loan / 5 - 10000 in
    if Qltb 1 disposable then 0%Z else 1%Z.

Definition _classification_function_9 : classifier :=
  fun salary commission age elevel car zipcode hvalue hyears loan =>
    let equity :=
      if (20 <=? hyears)%Z then hvalue * inject_Z (hyears - 20) / 10 else 0 in
    let disposable :=
      2 * (salary + commission) / 3 - 5000 * inject_Z elevel + equity / 5 - 10000 in
    if Qltb 1 disposable then 0%Z else 1%Z.

Definition _classification_functions : list classifier :=
  [ _classification_function_0; _classification_function_1;
    _classification_function_2; _classification_function_3;
    _classification_function_4; _classification_function_5;
    _classification_function_6; _classification_function_7;
    _classification_function_8; _classification_function_9 ].

(** Python list indexing [l[i]]: negative indices count from the end, and an
    index outside [-len, len) raises [IndexError]. *)

Definition list_getitem {A : Type} (l : list A) (i : Z) : outcome A :=
  let n := Z.of_nat (length l) in
  let j := if (i <? 0)%Z then (i + n)%Z else i in
  if (j <? 0)%Z || (n <=? j)%Z then Raise IndexError
  else match nth_error l (Z.to_nat j) with
       | Some a => Ret a
       | None => Raise IndexError
       end.

(** ** Records *)

(** The nine raw values of one candidate, as drawn. *)
Record raw : Type := {
  raw_salary : Q;
  raw_commission : Q;
  raw_age : Z;
  raw_elevel : Z;
  raw_car : Z;
  raw_zipcode : Z;
  raw_hvalue : Q;
  raw_hyears : Z;
  raw_loan : Q
}.

(** The yielded dictionary [x].  After perturbation [age] and [hyears] are
    floats ([np.round] of a float), so they are rationals here. *)
Record features : Type := {
  salary : Q;
  commission : Q;
  age : Q;
  elevel : Z;
  car : Z;
  zipcode : Z;
  hvalue : Q;
  hyears : Q;
  loan : Q
}.

Definition apply_classifier (f : classifier) (r : raw) : Z :=
  f (raw_salary r) (raw_commission r) (raw_age r) (raw_elevel r) (raw_car r)
    (raw_zipcode r) (raw_hvalue r) (raw_hyears r) (raw_loan r).

(** [np.round]: to the nearest integer, ties to the even one; the result is
    still a float. *)
Definition np_round (x : Q) : Q :=
  let f := Qfloor x in
  let d := x - inject_Z f in
  if Qltb d (1 # 2) then inject_Z f
  else if Qltb (1 # 2) d then inject_Z (f + 1)
  else if Z.even f then inject_Z f else inject_Z (f + 1).

Section Generator.

Context {G : Type} `{RandomState G}.

(** ** The generator object

    The attributes of [self] that the methods read or write.  [seed],
    [feature_names], [target_values] and the legacy [current_sample_x] and
    [current_sample_y] are never read back by the modelled methods. *)
Record state : Type := mkState {
  classification_function : Z;
  balance_classes : bool;
  perturbation : Q;
  sample_idx : Z;
  _next_class_should_be_zero : bool;
  _rng : G
}.

Definition set_rng (st : state) (g : G) : state :=
  mkState (classification_function st) (balance_classes st) (perturbation st)
          (sample_idx st) (_next_class_should_be_zero st) g.

Definition set_next_class_should_be_zero (st : state) (b : bool) : state :=
  mkState (classification_function st) (balance_classes st) (perturbation st)
          (sample_idx st) b (_rng st).

Definition set_sample_idx (st : state) (i : Z) : state :=
  mkState (classification_function st) (balance_classes st) (perturbation st)
          i (_next_class_should_be_zero st) (_rng st).

Definition set_classification_function (st : state) (f : Z) : state :=
  mkState f (balance_classes st) (perturbation st)
          (sample_idx st) (_next_class_should_be_zero st) (_rng st).

(** [__init__], lines 98-120.  [check_random_state(seed)] is outside the
    repository's sources here: the random source it returns is the argument
    [g]. *)
Definition __init__ (classification_function : Z) (g : G)
    (balance_classes : bool) (perturbation : Q) : outcome state :=
  if negb ((0 <=? classification_function)%Z && (classification_function <? 10)%Z)
  then Raise ValueError
  else if negb (Qle_bool 0 perturbation && Qle_bool perturbation 1)
  then Raise ValueError
  else Ret (mkState classification_function balance_classes perturbation
                    0 false g).

(** Lines 128-136: the nine raw draws of one candidate, in exact arithmetic.
    In binary64 the sums of lines 128 and 134 round, and at the largest
    [rand()] they reach the upper ends 150000 and [(9 - zipcode) * 150000]
    (module [Binary64]), which the exact values stay below. *)
Definition draw (g : G) : raw * G :=
  let (u, g) := rand g in
  let salary := 20000 + 130000 * u in
  let (commission, g) :=
    if Qle_bool 75000 salary then (0, g)
    else let (u, g) := rand g in (10000 + 75000 * u, g) in
  let (k, g) := randint 61 g in
  let age := (20 + k)%Z in
  let (elevel, g) := randint 5 g in
  let (car, g) := randint 20 g in
  let (zipcode, g) := randint 9 g in
  let (u, g) := rand g in
  let hvalue := inject_Z ((9 - zipcode) * 100000) * ((1 # 2) + u) in
  let (k, g) := randint 30 g in
  let hyears := (1 + k)%Z in
  let (u, g) := rand g in
  let loan := u * 500000 in
  (Build_raw salary commission age elevel car zipcode hvalue hyears loan, g).

(** Lines 127-150: the rejection loop.  Returns the accepted candidate, its
    label [group] and the generator after the loop. *)
Fixpoint rejection_loop (fuel : nat) (st : state) : outcome (raw * Z * state) :=
  match fuel with
  | O => Diverge
  | S fuel' =>
      let (r, g) := draw (_rng st) in
      let st := set_rng st g in
      do f <- list_getitem _classification_functions (classification_function st);
      let group := apply_classifier f r in
      if negb (balance_classes st) then Ret (r, group, st)
      else if (_next_class_should_be_zero st && (group =? 0)%Z)
              || (negb (_next_class_should_be_zero st) && (group =? 1)%Z)
      then Ret (r, group,
                set_next_class_should_be_zero st
                  (negb (_next_class_should_be_zero st)))
      else rejection_loop fuel' st
  end.

(** [_perturb_value], lines 171-179. *)
Definition _perturb_value (st : state) (val val_min val_max : Q)
    (val_range : option Q) : Q * state :=
  let val_range :=
    match val_range with
    | None => val_max - val_min
    | Some r => r
    end in
  let (u, g) := rand (_rng st) in
  let val := val + val_range * (2 * (u - (1 # 2))) * perturbation st in
  let val :=
    if Qltb val val_min then val_min
    else if Qltb val_max val then val_max
    else val in
  (val, set_rng st g).

(** Lines 152-159: the noise step, run when [perturbation > 0.0]. *)
Definition perturb (st : state) (r : raw) : features * state :=
  let (salary, st) := _perturb_value st (raw_salary r) 20000 150000 None in
  let (commission, st) :=
    if Qltb 0 (raw_commission r)
    then _perturb_value st (raw_commission r) 10000 75000 None
    else (raw_commission r, st) in
  let (age, st) := _perturb_value st (inject_Z (raw_age r)) 20 80 None in
  let age := np_round age in
  let (hvalue, st) :=
    _perturb_value st (raw_hvalue r)
      (inject_Z ((9 - raw_zipcode r) * 100000)) 0 (Some 135000) in
  let (hyears, st) := _perturb_value st (inject_Z (raw_hyears r)) 1 30 None in
  let hyears := np_round hyears in
  let (loan, st) := _perturb_value st (raw_loan r) 0 500000 None in
  (Build_features salary commission age (raw_elevel r) (raw_car r)
     (raw_zipcode r) hvalue hyears loan, st).

(** The record yielded when no noise is applied. *)
Definition unperturbed (r : raw) : features :=
  Build_features (raw_salary r) (raw_commission r) (inject_Z (raw_age r))
    (raw_elevel r) (raw_car r) (raw_zipcode r) (raw_hvalue r)
    (inject_Z (raw_hyears r)) (raw_loan r).

(** One turn of the outer [while True] of [__iter__], up to its [yield]:
    the pair [(x, y)] and the generator as the consumer finds it. *)
Definition next_sample (fuel : nat) (st : state)
    : outcome (features * Z * state) :=
  let st := set_sample_idx st (sample_idx st + 1) in
  do (r, group, st) <- rejection_loop fuel st;
  let (x, st) :=
    if Qltb 0 (perturbation st) then perturb st r else (unperturbed r, st) in
  Ret (x, group, st).

(** The first [n] pairs of the stream, each produced with [fuel] turns of the
    rejection loop at most. *)
Fixpoint take (fuel : nat) (n : nat) (st : state)
    : outcome (list (features * Z) * state) :=
  match n with
  | O => Ret ([], st)
  | S n' =>
      do (x, y, st) <- next_sample fuel st;
      do (rest, st) <- take fuel n' st;
      Ret ((x, y) :: rest, st)
  end.

(** [generate_drift], lines 186-189.  [fuel] bounds the tests of the [while]
    condition. *)
Fixpoint drift_loop (fuel : nat) (current new_function : Z) (g : G)
    : outcome (Z * G) :=
  match fuel with
  | O => Diverge
  | S fuel' =>
      if (new_function =? current)%Z
      then let (new_function, g) := randint 10 g in
           drift_loop fuel' current new_function g
      else Ret (new_function, g)
  end.

Definition generate_drift (fuel : nat) (st : state) : outcome state :=
  let (new_function, g) := randint 10 (_rng st) in
  do (new_function, g) <-
     drift_loop fuel (classification_function st) new_function g;
  Ret (set_classification_function (set_rng st g) new_function).

(** ** Vocabulary of the properties *)

(** Two generator objects that differ in the random source only. *)
Definition same_settings (a b : state) : Prop :=
  classification_function a = classification_function b /\
  balance_classes a = balance_classes b /\
  perturbation a = perturbation b /\
  sample_idx a = sample_idx b /\
  _next_class_should_be_zero a = _next_class_should_be_zero b.

(** What [__init__] validates. *)
Definition valid (st : state) : Prop :=
  (0 <= classification_function st < 10)%Z /\
  0 <= perturbation st /\ perturbation st <= 1.

(** The generator objects a consumer can obtain from [st0] by pulling samples
    and injecting drifts. *)
Inductive reachable (st0 : state) : state -> Prop :=
| reach_start : reachable st0 st0
| reach_sample fuel st x y st' :
    reachable st0 st -> next_sample fuel st = Ret (x, y, st') ->
    reachable st0 st'
| reach_drift fuel st st' :
    reachable st0 st -> generate_drift fuel st = Ret st' ->
    reachable st0 st'.

(** The outcome of the [k+1]-th consecutive call [randint(10)] from [g]. *)
Fixpoint drift_draws (k : nat) (g : G) : Z * G :=
  match k with
  | O => randint 10 g
  | S k' => drift_draws k' (snd (randint 10 g))
  end.

(** The values [new_function] takes: the one in hand, then the later draws. *)
Definition drift_seq (new : Z) (g : G) (i : nat) : Z * G :=
  match i with
  | O => (new, g)
  | S i' => drift_draws i' g
  end.

(** The values of the first [k] consecutive calls [randint(10)] from [g]. *)
Definition draws (k : nat) (g : G) : list Z :=
  map (fun i => fst (drift_draws i g)) (seq 0 k).

(** The value [_perturb_value] clamps: [val] after the noise was added. *)
Definition noisy (st : state) (val val_min val_max : Q)
    (val_range : option Q) : Q :=
  val
  + match val_range with None => val_max - val_min | Some r => r end
    * (2 * (fst (rand (_rng st)) - (1 # 2))) * perturbation st.

End Generator.

Arguments state : clear implicits.

(** The ranges of the raw draws. *)
Definition raw_in_range (r : raw) : Prop :=
  (20000 <= raw_salary r /\ raw_salary r < 150000) /\
  (20 <= raw_age r <= 80)%Z /\
  (0 <= raw_elevel r < 5)%Z /\
  (0 <= raw_car r < 20)%Z /\
  (0 <= raw_zipcode r < 9)%Z /\
  (1 <= raw_hyears r <= 30)%Z /\
  (0 <= raw_loan r /\ raw_loan r < 500000) /\
  (75000 <= raw_salary r -> raw_commission r == 0) /\
  (raw_salary r < 75000 ->
   10000 <= raw_commission r /\ raw_commission r < 85000).

(** The same ranges with the upper bound of the salary included. *)
Definition raw_in_closed_range (r : raw) : Prop :=
  (20000 <= raw_salary r /\ raw_salary r <= 150000) /\
  (20 <= raw_age r <= 80)%Z /\
  (0 <= raw_elevel r < 5)%Z /\
  (0 <= raw_car r < 20)%Z /\
  (0 <= raw_zipcode r < 9)%Z /\
  (1 <= raw_hyears r <= 30)%Z /\
  (0 <= raw_loan r /\ raw_loan r < 500000) /\
  (75000 <= raw_salary r -> raw_commission r == 0) /\
  (raw_salary r < 75000 ->
   10000 <= raw_commission r /\ raw_commission r < 85000).

(** The interval of the house values of a zipcode, bounds included. *)
Definition hvalue_within (zipcode : Z) (v : Q) : Prop :=
  inject_Z ((9 - zipcode) * 50000) <= v /\
  v <= inject_Z ((9 - zipcode) * 150000).

(** Labels that alternate, starting with 0 when [zero_next] holds. *)
Fixpoint alternating (n : nat) (zero_next : bool) : list Z :=
  match n with
  | O => []
  | S n' => (if zero_next then 0%Z else 1%Z) :: alternating n' (negb zero_next)
  end.

Definition count_label (y : Z) (l : list Z) : Z :=
  Z.of_nat (count_occ Z.eq_dec l y).

(** ** Drift injection over all sequences of draws

    The index [generate_drift] selects depends on the source only through
    the values the consecutive calls [randint(10)] return.  [first_other cur
    l] is the first value of the sequence [l] that differs from [cur];
    [all_draws k] lists the [10 ^ k] sequences of [k] values in 0..9, which
    an ideal source makes equally likely; [count_selecting cur j k] is the
    number of them whose first value other than [cur] is [j]. *)

Fixpoint first_other (cur : Z) (l : list Z) : option Z :=
  match l with
  | [] => None
  | h :: t => if (h =? cur)%Z then first_other cur t else Some h
  end.

Definition digits : list Z := [0; 1; 2; 3; 4; 5; 6; 7; 8; 9]%Z.

Fixpoint all_draws (k : nat) : list (list Z) :=
  match k with
  | O => [[]]
  | S k' => flat_map (fun d => map (cons d) (all_draws k')) digits
  end.

Definition selects (cur j : Z) (l : list Z) : bool :=
  match first_other cur l with
  | Some x => (x =? j)%Z
  | None => false
  end.

Definition count_selecting (cur j : Z) (k : nat) : nat :=
  length (filter (selects cur j) (all_draws k)).

(** ** Scripted generators for concrete runs *)

(** A generator with noise, about to draw zipcode 2 and a house value of
    875000, and then five noise draws of 0.5 (no noise). *)
Definition noisy_generator : state (list Z) :=
  mkState 0 false (1 # 2) 0 false
    [500; 3; 0; 0; 2; 750; 0; 0; 500; 500; 500; 500; 500]%Z.

(** The range in which [hvalue] is generated for a zipcode. *)
Definition hvalue_generated (zipcode : Z) (v : Q) : Prop :=
  inject_Z ((9 - zipcode) * 50000) <= v /\
  v < inject_Z ((9 - zipcode) * 150000).

(** Two balanced samples on a script whose first candidate is aged 23
    (label 1 under function 0) and whose second is aged 45 (label 0). *)
Definition balanced_generator : state (list Z) :=
  mkState 0 true 0 0 false
    [500; 3; 0; 0; 0; 0; 0; 0; 500; 25; 0; 0; 0; 0; 0; 0]%Z.

(** A drift on a script that serves the current index twice, then 7. *)
Definition drifting_generator : state (list Z) :=
  mkState 0 false 0 0 false [0; 0; 7]%Z.

(** ** Properties of the generator *)

Section GeneratorProperties.
Context {G : Type} `{RandomState G}.

Ltac step_rand u g' :=
  match goal with
  | |- context [rand ?g] =>
      let Hr := fresh "Hr" in
      pose proof (rand_range g) as Hr;
      destruct (rand g) as [u g']; cbn [fst] in Hr
  end.

Ltac step_randint n k g' :=
  match goal with
  | |- context [randint n ?g] =>
      let Hr := fresh "Hr" in
      pose proof (randint_range n g eq_refl) as Hr;
      destruct (randint n g) as [k g']; cbn [fst] in Hr
  end.

Lemma list_getitem_classifier (i : Z) :
  (0 <= i < 10)%Z ->
  exists f, list_getitem _classification_functions i = Ret f.
Proof.
  intros Hi.
  assert (Hc : (i = 0 \/ i = 1 \/ i = 2 \/ i = 3 \/ i = 4 \/ i = 5 \/ i = 6
               \/ i = 7 \/ i = 8 \/ i = 9)%Z) by lia.
  repeat (destruct Hc as [-> | Hc]); try subst i; eexists; reflexivity.
Qed.

(** What the rejection loop guarantees about an accepted candidate. *)
Lemma rejection_loop_ret (fuel : nat) (st st' : state G) (r : raw) (group : Z) :
  rejection_loop fuel st = Ret (r, group, st') ->
  (exists g, r = fst (draw g)) /\
  (exists f, list_getitem _classification_functions (classification_function st)
             = Ret f /\ group = apply_classifier f r) /\
  classification_function st' = classification_function st /\
  balance_classes st' = balance_classes st /\
  perturbation st' = perturbation st /\
  sample_idx st' = sample_idx st /\
  (balance_classes st = false ->
   _next_class_should_be_zero st' = _next_class_should_be_zero st) /\
  (balance_classes st = true ->
   _next_class_should_be_zero st' = negb (_next_class_should_be_zero st) /\
   group = if _next_class_should_be_zero st then 0%Z else 1%Z).
Proof.
  revert st. induction fuel as [|fuel IH]; intros st Hrun; [discriminate|].
  cbn [rejection_loop] in Hrun.
  destruct (draw (_rng st)) as [r0 g0] eqn:Hd.
  cbn [set_rng classification_function balance_classes
       _next_class_should_be_zero] in Hrun.
  destruct (list_getitem _classification_functions (classification_function st))
    as [f| |] eqn:Hf; cbn [bind] in Hrun; try discriminate.
  destruct (balance_classes st) eqn:Hb; cbn [negb] in Hrun.
  - destruct (_next_class_should_be_zero st) eqn:Ht; cbn [negb andb orb] in Hrun.
    + destruct (Z.eqb_spec (apply_classifier f r0) 0) as [E|E]; cbn [orb] in Hrun.
      * inversion Hrun; subst; clear Hrun. cbn.
        repeat split; eauto; try congruence.
        exists (_rng st). now rewrite Hd.
      * apply IH in Hrun. cbn in Hrun. rewrite Hb, Ht in Hrun.
        destruct Hrun as (A & B & C & D & E1 & F & K & L).
        rewrite Hf in B.
        repeat split; try tauto; try congruence; try (apply L; reflexivity).
    + destruct (Z.eqb_spec (apply_classifier f r0) 1) as [E|E]; cbn [orb] in Hrun.
      * inversion Hrun; subst; clear Hrun. cbn.
        repeat split; eauto; try congruence.
        exists (_rng st). now rewrite Hd.
      * apply IH in Hrun. cbn in Hrun. rewrite Hb, Ht in Hrun.
        destruct Hrun as (A & B & C & D & E1 & F & K & L).
        rewrite Hf in B.
        repeat split; try tauto; try congruence; try (apply L; reflexivity).
  - inversion Hrun; subst; clear Hrun. cbn.
    repeat split; eauto; try congruence.
    exists (_rng st). now rewrite Hd.
Qed.


Lemma _perturb_value_settings st v lo hi rg :
  same_settings (snd (_perturb_value st v lo hi rg)) st.
Proof.
  unfold _perturb_value. destruct (rand (_rng st)) as [u g].
  cbn. repeat split.
Qed.

Lemma same_settings_trans (a b c : state G) :
  same_settings a b -> same_settings b c -> same_settings a c.
Proof. unfold same_settings. intuition congruence. Qed.

Lemma perturb_settings st r : same_settings (snd (perturb st r)) st.
Proof.
  unfold perturb.
  pose proof (_perturb_value_settings st (raw_salary r) 20000 150000 None) as H1.
  destruct (_perturb_value st (raw_salary r) 20000 150000 None) as [v1 s1].
  cbn [snd] in H1.
  assert (H2 : forall p : Q * state G,
    p = (if Qltb 0 (raw_commission r)
         then _perturb_value s1 (raw_commission r) 10000 75000 None
         else (raw_commission r, s1)) -> same_settings (snd p) s1).
  { intros p ->. destruct (Qltb 0 (raw_commission r)).
    - apply _perturb_value_settings.
    - cbn. repeat split. }
  specialize (H2 _ eq_refl).
  destruct (if Qltb 0 (raw_commission r)
            then _perturb_value s1 (raw_commission r) 10000 75000 None
            else (raw_commission r, s1)) as [v2 s2].
  cbn [snd] in H2.
  pose proof (_perturb_value_settings s2 (inject_Z (raw_age r)) 20 80 None) as H3.
  destruct (_perturb_value s2 (inject_Z (raw_age r)) 20 80 None) as [v3 s3].
  cbn [snd] in H3.
  pose proof (_perturb_value_settings s3 (raw_hvalue r)
                (inject_Z ((9 - raw_zipcode r) * 100000)) 0 (Some 135000)) as H4.
  destruct (_perturb_value s3 (raw_hvalue r)
              (inject_Z ((9 - raw_zipcode r) * 100000)) 0 (Some 135000))
    as [v4 s4].
  cbn [snd] in H4.
  pose proof (_perturb_value_settings s4 (inject_Z (raw_hyears r)) 1 30 None) as H5.
  destruct (_perturb_value s4 (inject_Z (raw_hyears r)) 1 30 None) as [v5 s5].
  cbn [snd] in H5.
  pose proof (_perturb_value_settings s5 (raw_loan r) 0 500000 None) as H6.
  destruct (_perturb_value s5 (raw_loan r) 0 500000 None) as [v6 s6].
  cbn [snd] in *.
  eauto 10 using same_settings_trans.
Qed.

(** One turn of [__iter__] is the rejection loop followed by the optional
    noise step. *)
Lemma next_sample_ret fuel st x y st' :
  next_sample fuel st = Ret (x, y, st') ->
  exists r st1,
    rejection_loop fuel (set_sample_idx st (sample_idx st + 1)) = Ret (r, y, st1) /\
    same_settings st' st1 /\
    (x, st') = (if Qltb 0 (perturbation st1) then perturb st1 r
                else (unperturbed r, st1)).
Proof.
  unfold next_sample. intros Hrun.
  destruct (rejection_loop fuel (set_sample_idx st (sample_idx st + 1)))
    as [[[r g] st1]| |]; cbn [bind] in Hrun; try discriminate.
  exists r, st1.
  pose proof (perturb_settings st1 r) as Hp.
  destruct (Qltb 0 (perturbation st1)).
  - destruct (perturb st1 r) as [x1 s1]. cbn [snd] in Hp.
    inversion Hrun; subst. auto.
  - inversion Hrun; subst. repeat split.
Qed.

(** *** Raw draws (lines 128-136) *)

(** The ranges of the nine raw values of a candidate. *)
Lemma draw_ranges (g : G) : raw_in_range (fst (draw g)).
Proof.
  unfold draw.
  step_rand u1 g1.
  set (sal := 20000 + 130000 * u1).
  assert (Hc : exists c g2,
    (if Qle_bool 75000 sal then (0, g1)
     else let (u, g) := rand g1 in (10000 + 75000 * u, g)) = (c, g2) /\
    (75000 <= sal -> c == 0) /\
    (sal < 75000 -> 10000 <= c /\ c < 85000)).
  { destruct (Qle_bool 75000 sal) eqn:E.
    - exists 0, g1. split; [reflexivity|]. split; [reflexivity|].
      apply Qle_bool_iff in E. intros Hlt. exfalso. lra.
    - step_rand u2 g2. exists (10000 + 75000 * u2), g2.
      split; [reflexivity|]. split.
      + intros Hle. apply Qle_bool_iff in Hle. congruence.
      + intros _. lra. }
  destruct Hc as (c & g2 & -> & Hc1 & Hc2).
  step_randint 61%Z k1 g3.
  step_randint 5%Z el g4.
  step_randint 20%Z cr g5.
  step_randint 9%Z zp g6.
  step_rand u3 g7.
  step_randint 30%Z k2 g8.
  step_rand u4 g9.
  unfold raw_in_range;
  cbn [fst raw_salary raw_commission raw_age raw_elevel raw_car raw_zipcode
         raw_hvalue raw_hyears raw_loan].
  subst sal. repeat split; try lia; try lra; try tauto.
Qed.

(** C7, as amended.  Whatever the state of the random source, the nine raw
    values of a candidate lie in their ranges: salary in [20000, 150000],
    age in [20, 80], elevel in [0, 5), car in [0, 20), zipcode in [0, 9),
    hyears in [1, 30], loan in [0, 500000); commission is 0 when salary >=
    75000 and in [10000, 85000) otherwise.  In binary64, at the largest
    value of [rand()], the salary is at most 150000 and the commission and
    the loan are still strictly below 85000 and 500000. *)
Theorem draw_in_closed_range :
  (forall g : G, raw_in_closed_range (fst (draw g))) /\
  PrimFloat.leb (Binary64.salary Binary64.largest_rand) 150000 = true /\
  PrimFloat.ltb (Binary64.commission Binary64.largest_rand) 85000 = true /\
  PrimFloat.ltb (Binary64.loan Binary64.largest_rand) 500000 = true.
Proof.
  split; [|repeat split].
  intros g.
  pose proof (draw_ranges g)
    as ((Hs0 & Hs1) & Ha & He & Hc & Hz & Hy & Hl & Hc0 & Hc1).
  unfold raw_in_closed_range.
  split; [split; [exact Hs0 | apply Qlt_le_weak; exact Hs1]|].
  repeat split; try tauto; try lia.
Qed.

(** *** Classification function 4 *)

Lemma between_true lo x hi : between lo x hi = true -> lo <= x /\ x <= hi.
Proof.
  unfold between. intros Hb. apply andb_true_iff in Hb as [H1 H2].
  split; apply Qle_bool_iff; assumption.
Qed.

Lemma Qle_bool_false x y : y < x -> Qle_bool x y = false.
Proof.
  intros Hlt. destruct (Qle_bool x y) eqn:E; [|reflexivity].
  apply Qle_bool_iff in E. exfalso. exact (Qlt_not_le _ _ Hlt E).
Qed.

Lemma _classification_function_4_middle
    (salary commission : Q) (age elevel car zipcode : Z) (hvalue : Q)
    (hyears : Z) (loan : Q) :
  (40 <= age < 60)%Z -> salary < 200000 ->
  _classification_function_4 salary commission age elevel car zipcode hvalue
    hyears loan = 0%Z.
Proof.
  intros Hage Hsal. unfold _classification_function_4.
  destruct (Z.ltb_spec age 40) as [?|_]; [lia|].
  destruct (Z.ltb_spec age 60) as [_|?]; [|lia].
  assert (E2 : Qle_bool 200000 salary = false) by (apply Qle_bool_false; lra).
  assert (E3 : Qle_bool 300000 salary = false) by (apply Qle_bool_false; lra).
  rewrite E2, E3. destruct (between 75000 salary 125000); reflexivity.
Qed.

(** C6, as amended.  Function 4 returns 0 for 40 <= age < 60 and salary <
    200000, whatever the loan; hence every candidate the generator accepts
    while function 4 is active and whose drawn age is in that bracket has a
    salary of at most 150000 and is labelled 0.  The label is computed
    before the noise: without noise the yielded age is the drawn one and
    this is the label of every yielded record of that bracket, with noise
    the yielded age need not be the drawn one. *)
Theorem function_4_middle_bracket_of_drawn_age :
  (forall (salary commission : Q) (age elevel car zipcode : Z) (hvalue : Q)
          (hyears : Z) (loan : Q),
     (40 <= age < 60)%Z -> salary < 200000 ->
     _classification_function_4 salary commission age elevel car zipcode
       hvalue hyears loan = 0%Z) /\
  (forall (fuel : nat) (st st' : state G) (r : raw) (group : Z),
     classification_function st = 4%Z ->
     rejection_loop fuel st = Ret (r, group, st') ->
     (40 <= raw_age r < 60)%Z ->
     raw_salary r <= 150000 /\ group = 0%Z) /\
  (forall (fuel : nat) (st st' : state G) (x : features) (y : Z),
     classification_function st = 4%Z ->
     perturbation st <= 0 ->
     next_sample fuel st = Ret (x, y, st') ->
     40 <= age x -> age x < 60 ->
     salary x <= 150000 /\ y = 0%Z).
Proof.
  assert (Hloop : forall (fuel : nat) (st st' : state G) (r : raw) (group : Z),
     classification_function st = 4%Z ->
     rejection_loop fuel st = Ret (r, group, st') ->
     (40 <= raw_age r < 60)%Z ->
     raw_salary r <= 150000 /\ group = 0%Z).
  { intros fuel st st' r group Hcf Hrun Hage.
    apply rejection_loop_ret in Hrun
      as ((g & ->) & (f & Hf & ->) & _).
    pose proof (draw_ranges g) as ((_ & Hsal) & _).
    split; [apply Qlt_le_weak; exact Hsal|].
    rewrite Hcf in Hf.
    change (Ret _classification_function_4 = Ret f) in Hf.
    injection Hf as <-.
    unfold apply_classifier.
    apply _classification_function_4_middle; [exact Hage | lra]. }
  split; [|split].
  - intros. now apply _classification_function_4_middle.
  - exact Hloop.
  - intros fuel st st' x y Hcf Hp Hrun Hlo Hhi.
    apply next_sample_ret in Hrun as (r & st1 & Hrej & _ & Hx).
    pose proof (rejection_loop_ret _ _ _ _ _ Hrej)
      as (_ & _ & _ & _ & Hp1 & _).
    cbn in Hp1. rewrite Hp1 in Hx.
    rewrite (proj2 (Qltb_ge 0 (perturbation st)) Hp) in Hx.
    injection Hx as -> _. cbn [age salary unperturbed] in *.
    apply (Hloop fuel (set_sample_idx st (sample_idx st + 1)) st1 r y Hcf Hrej).
    rewrite Zle_Qle, Zlt_Qlt. split; assumption.
Qed.

(** *** Class balancing (lines 144-150) *)

Lemma next_sample_balanced fuel (st st' : state G) x y :
  balance_classes st = true ->
  next_sample fuel st = Ret (x, y, st') ->
  balance_classes st' = true /\
  _next_class_should_be_zero st' = negb (_next_class_should_be_zero st) /\
  y = if _next_class_should_be_zero st then 0%Z else 1%Z.
Proof.
  intros Hb Hrun.
  apply next_sample_ret in Hrun as (r & st1 & Hloop & Hsame & _).
  apply rejection_loop_ret in Hloop as (_ & _ & _ & Hb1 & _ & _ & _ & Ht).
  cbn in Hb1, Ht. destruct (Ht Hb) as [Ht1 Hy].
  destruct Hsame as (_ & Hb' & _ & _ & Ht').
  repeat split; congruence.
Qed.

Lemma next_sample_unbalanced fuel (st st' : state G) x y :
  balance_classes st = false ->
  next_sample fuel st = Ret (x, y, st') ->
  _next_class_should_be_zero st' = _next_class_should_be_zero st.
Proof.
  intros Hb Hrun.
  apply next_sample_ret in Hrun as (r & st1 & Hloop & Hsame & _).
  apply rejection_loop_ret in Hloop as (_ & _ & _ & _ & _ & _ & Ht & _).
  cbn in Ht. destruct Hsame as (_ & _ & _ & _ & Ht').
  rewrite Ht', Ht; auto.
Qed.

Lemma rejection_loop_unbalanced fuel (st : state G) :
  balance_classes st = false ->
  rejection_loop (S fuel) st =
  (do f <- list_getitem _classification_functions (classification_function st);
   Ret (fst (draw (_rng st)), apply_classifier f (fst (draw (_rng st))),
        set_rng st (snd (draw (_rng st))))).
Proof.
  intros Hb. cbn [rejection_loop].
  destruct (draw (_rng st)) as [r g]. cbn [fst snd].
  cbn [set_rng classification_function balance_classes].
  rewrite Hb. reflexivity.
Qed.

Lemma take_labels fuel n : forall (st st' : state G) l,
  balance_classes st = true ->
  take fuel n st = Ret (l, st') ->
  map snd l = alternating n (_next_class_should_be_zero st).
Proof.
  induction n as [|n IH]; intros st st' l Hb Hrun; cbn [take] in Hrun.
  - inversion Hrun; reflexivity.
  - destruct (next_sample fuel st) as [[[x y] st1]| |] eqn:Hn;
      cbn [bind] in Hrun; try discriminate.
    destruct (take fuel n st1) as [[rest st2]| |] eqn:Ht;
      cbn [bind] in Hrun; try discriminate.
    inversion Hrun; subst; clear Hrun.
    apply next_sample_balanced in Hn as (Hb1 & Ht1 & Hy); [|exact Hb].
    cbn [map snd alternating]. rewrite (IH _ _ _ Hb1 Ht), Ht1, Hy.
    reflexivity.
Qed.

Lemma alternating_counts n : forall b,
  let d := (count_label 0 (alternating n b) - count_label 1 (alternating n b))%Z in
  if b then (0 <= d <= 1)%Z else (-1 <= d <= 0)%Z.
Proof.
  unfold count_label.
  induction n as [|n IH]; intros b; cbn [alternating].
  - destruct b; cbn; lia.
  - specialize (IH (negb b)). destruct b; cbn [negb] in IH |- *;
      cbn [count_occ];
      repeat match goal with
             | |- context [Z.eq_dec ?a ?b] => destruct (Z.eq_dec a b); try lia
             end.
Qed.

(** C2. With [balance_classes] set, each accepted sample flips
    [_next_class_should_be_zero] and carries the label the toggle asked for,
    so in any run of consecutive accepted samples (of any length, in
    particular N >= 2) the numbers of labels 0 and 1 differ by at most 1.
    With [balance_classes] unset, the first candidate of each turn is
    accepted, whatever its label, and the toggle is left as it was. *)
Theorem balance_classes_alternates :
  (forall fuel (st st' : state G) x y,
     balance_classes st = true ->
     next_sample fuel st = Ret (x, y, st') ->
     _next_class_should_be_zero st' = negb (_next_class_should_be_zero st) /\
     y = if _next_class_should_be_zero st then 0%Z else 1%Z) /\
  (forall fuel n (st st' : state G) l,
     balance_classes st = true ->
     take fuel n st = Ret (l, st') ->
     (Z.abs (count_label 0 (map snd l) - count_label 1 (map snd l)) <= 1)%Z) /\
  (forall fuel (st : state G),
     balance_classes st = false ->
     rejection_loop (S fuel) st =
     (do f <- list_getitem _classification_functions (classification_function st);
      Ret (fst (draw (_rng st)), apply_classifier f (fst (draw (_rng st))),
           set_rng st (snd (draw (_rng st)))))) /\
  (forall fuel (st st' : state G) x y,
     balance_classes st = false ->
     next_sample fuel st = Ret (x, y, st') ->
     _next_class_should_be_zero st' = _next_class_should_be_zero st).
Proof.
  split; [|split; [|split]].
  - intros fuel st st' x y Hb Hrun.
    now apply next_sample_balanced in Hrun.
  - intros fuel n st st' l Hb Hrun.
    rewrite (take_labels _ _ _ _ _ Hb Hrun).
    pose proof (alternating_counts n (_next_class_should_be_zero st)) as Hc.
    cbv zeta in Hc. destruct (_next_class_should_be_zero st); lia.
  - intros. now apply rejection_loop_unbalanced.
  - intros fuel st st' x y Hb Hrun.
    now apply next_sample_unbalanced in Hrun.
Qed.

(** *** Construction and the absence of exceptions afterwards *)

Lemma __init___ret cf g b p (st : state G) :
  __init__ cf g b p = Ret st ->
  st = mkState cf b p 0 false g /\ (0 <= cf < 10)%Z /\ 0 <= p /\ p <= 1.
Proof.
  unfold __init__.
  destruct (Z.leb_spec 0 cf), (Z.ltb_spec cf 10); cbn [andb negb];
    try discriminate.
  destruct (Qle_bool 0 p) eqn:E1, (Qle_bool p 1) eqn:E2; cbn [andb negb];
    try discriminate.
  intros [= <-]. apply Qle_bool_iff in E1, E2. repeat split; auto.
Qed.

Lemma __init___raises cf (g : G) b p :
  raises (__init__ cf g b p) <->
  ((cf < 0)%Z \/ (9 < cf)%Z) \/ (p < 0 \/ 1 < p).
Proof.
  unfold raises, __init__.
  destruct (Z.leb_spec 0 cf), (Z.ltb_spec cf 10); cbn [andb negb];
    try (split; [intros _; left; lia | intros _; eexists; reflexivity]).
  destruct (Qle_bool 0 p) eqn:E1, (Qle_bool p 1) eqn:E2; cbn [andb negb].
  - apply Qle_bool_iff in E1, E2. split.
    + intros [e He]; discriminate.
    + intros [[?|?]|[?|?]]; try lia; exfalso; lra.
  - split; [intros _|intros _; eexists; reflexivity].
    right; right. apply Qnot_le_lt. intros Hle.
    apply Qle_bool_iff in Hle. congruence.
  - split; [intros _|intros _; eexists; reflexivity].
    right; left. apply Qnot_le_lt. intros Hle.
    apply Qle_bool_iff in Hle. congruence.
  - split; [intros _|intros _; eexists; reflexivity].
    right; left. apply Qnot_le_lt. intros Hle.
    apply Qle_bool_iff in Hle. congruence.
Qed.

Lemma rejection_loop_no_raise fuel : forall (st : state G),
  (0 <= classification_function st < 10)%Z ->
  ~ raises (rejection_loop fuel st).
Proof.
  induction fuel as [|fuel IH]; intros st Hcf [e He]; [discriminate|].
  cbn [rejection_loop] in He.
  destruct (draw (_rng st)) as [r g].
  cbn [set_rng classification_function balance_classes
       _next_class_should_be_zero] in He.
  destruct (list_getitem_classifier _ Hcf) as [f Hf].
  rewrite Hf in He. cbn [bind] in He.
  destruct (negb (balance_classes st)); [discriminate|].
  match type of He with
  | (if ?c then _ else _) = _ => destruct c; [discriminate|]
  end.
  apply (IH (set_rng st g)); [exact Hcf | exists e; exact He].
Qed.

Lemma next_sample_no_raise fuel (st : state G) :
  (0 <= classification_function st < 10)%Z ->
  ~ raises (next_sample fuel st).
Proof.
  intros Hcf [e He]. unfold next_sample in He.
  pose proof (rejection_loop_no_raise fuel
                (set_sample_idx st (sample_idx st + 1)) Hcf) as Hno.
  destruct (rejection_loop fuel (set_sample_idx st (sample_idx st + 1)))
    as [[[r grp] st1]|e'|]; cbn [bind] in He.
  - destruct (if Qltb 0 (perturbation st1) then perturb st1 r
              else (unperturbed r, st1)); discriminate.
  - apply Hno. exists e'. reflexivity.
  - discriminate.
Qed.

Lemma drift_loop_no_raise fuel : forall cur new (g : G),
  ~ raises (drift_loop fuel cur new g).
Proof.
  induction fuel as [|fuel IH]; intros cur new g [e He]; [discriminate|].
  cbn [drift_loop] in He. destruct (new =? cur)%Z; [|discriminate].
  destruct (randint 10 g) as [n' g']. apply (IH cur n' g'). now exists e.
Qed.

Lemma generate_drift_no_raise fuel (st : state G) :
  ~ raises (generate_drift fuel st).
Proof.
  intros [e He]. unfold generate_drift in He.
  destruct (randint 10 (_rng st)) as [n g].
  pose proof (drift_loop_no_raise fuel (classification_function st) n g) as Hno.
  destruct (drift_loop fuel (classification_function st) n g)
    as [[n' g']|e'|]; cbn [bind] in He; try discriminate.
  apply Hno. now exists e'.
Qed.

Lemma drift_loop_ret fuel : forall cur new (g : G) new' g',
  (0 <= new < 10)%Z ->
  drift_loop fuel cur new g = Ret (new', g') ->
  (0 <= new' < 10)%Z /\ new' <> cur.
Proof.
  induction fuel as [|fuel IH]; intros cur new g new' g' Hn Hrun;
    [discriminate|].
  cbn [drift_loop] in Hrun.
  destruct (Z.eqb_spec new cur) as [E|E].
  - pose proof (randint_range 10 g eq_refl) as Hr.
    destruct (randint 10 g) as [n1 g1]. cbn [fst] in Hr.
    exact (IH _ _ _ _ _ Hr Hrun).
  - injection Hrun as <- <-. split; assumption.
Qed.

Lemma generate_drift_ret fuel (st st' : state G) :
  generate_drift fuel st = Ret st' ->
  (0 <= classification_function st' < 10)%Z /\
  classification_function st' <> classification_function st /\
  balance_classes st' = balance_classes st /\
  perturbation st' = perturbation st /\
  sample_idx st' = sample_idx st /\
  _next_class_should_be_zero st' = _next_class_should_be_zero st.
Proof.
  unfold generate_drift. intros Hrun.
  pose proof (randint_range 10 (_rng st) eq_refl) as Hr.
  destruct (randint 10 (_rng st)) as [n g]. cbn [fst] in Hr.
  destruct (drift_loop fuel (classification_function st) n g)
    as [[n' g']| |] eqn:Hl; cbn [bind] in Hrun; try discriminate.
  injection Hrun as <-.
  apply drift_loop_ret in Hl as [Hn' Hne]; [|exact Hr].
  cbn. repeat split; auto; lia.
Qed.

Lemma reachable_valid (st0 st : state G) :
  valid st0 -> reachable st0 st -> valid st.
Proof.
  intros Hv Hr. induction Hr as [|fuel st x y st' _ IH Hs|fuel st st' _ IH Hd].
  - exact Hv.
  - apply next_sample_ret in Hs as (r & st1 & Hloop & Hsame & _).
    apply rejection_loop_ret in Hloop as (_ & _ & Hc & _ & Hp & _).
    cbn in Hc, Hp. destruct Hsame as (Hc' & _ & Hp' & _).
    destruct IH as (A & B & C). unfold valid.
    rewrite Hc', Hc, Hp', Hp. auto.
  - apply generate_drift_ret in Hd as (Hc & _ & _ & Hp & _).
    destruct IH as (A & B & C). unfold valid. rewrite Hp. auto.
Qed.

(** C10. [__init__] raises exactly when the function index is outside 0..9
    or the perturbation is outside [0, 1], and what it raises is
    [ValueError]; on a generator it returned, neither pulling a sample nor
    injecting a drift ever raises, however many samples and drifts came
    before. *)
Theorem init_raises_iff_invalid :
  (forall cf (g : G) b p,
     raises (__init__ cf g b p) <->
     ((cf < 0)%Z \/ (9 < cf)%Z) \/ (p < 0 \/ 1 < p)) /\
  (forall cf (g : G) b p e, __init__ cf g b p = Raise e -> e = ValueError) /\
  (forall cf (g : G) b p st0 st fuel,
     __init__ cf g b p = Ret st0 ->
     reachable st0 st ->
     ~ raises (next_sample fuel st) /\ ~ raises (generate_drift fuel st)).
Proof.
  split; [|split].
  - intros. apply __init___raises.
  - intros cf g b p e. unfold __init__.
    repeat match goal with
           | |- context [if ?c then _ else _] => destruct c
           end; congruence.
  - intros cf g b p st0 st fuel Hinit Hreach.
    apply __init___ret in Hinit as (-> & Hcf & Hp0 & Hp1).
    assert (Hv : valid st).
    { eapply reachable_valid; [|exact Hreach]. repeat split; cbn; tauto. }
    split.
    + apply next_sample_no_raise. apply Hv.
    + apply generate_drift_no_raise.
Qed.

(** *** Drift injection (lines 186-189) *)

Lemma drift_seq_step new g i :
  drift_seq new g (S i) =
  drift_seq (fst (randint 10 g)) (snd (randint 10 g)) i.
Proof.
  destruct i as [|i]; cbn [drift_seq drift_draws].
  - now destruct (randint 10 g).
  - reflexivity.
Qed.

(** The loop stops at the first value that differs from the current index. *)
Lemma drift_loop_first k : forall fuel cur new (g : G),
  (k < fuel)%nat ->
  (forall i, (i < k)%nat -> fst (drift_seq new g i) = cur) ->
  fst (drift_seq new g k) <> cur ->
  drift_loop fuel cur new g = Ret (drift_seq new g k).
Proof.
  induction k as [|k IH]; intros fuel cur new g Hfuel Hbefore Hk;
    (destruct fuel as [|fuel]; [lia|]); cbn [drift_loop].
  - cbn [drift_seq fst] in Hk.
    destruct (Z.eqb_spec new cur); [contradiction|reflexivity].
  - pose proof (Hbefore 0%nat ltac:(lia)) as H0. cbn [drift_seq fst] in H0.
    destruct (Z.eqb_spec new cur); [|contradiction].
    rewrite drift_seq_step in Hk |- *.
    destruct (randint 10 g) as [n1 g1] eqn:Er. cbn [fst snd] in Hk |- *.
    apply IH; [lia| |exact Hk].
    intros i Hi. specialize (Hbefore (S i) ltac:(lia)).
    rewrite drift_seq_step, Er in Hbefore. exact Hbefore.
Qed.

Lemma generate_drift_first k fuel (st : state G) :
  (k < fuel)%nat ->
  (forall i, (i < k)%nat ->
     fst (drift_draws i (_rng st)) = classification_function st) ->
  fst (drift_draws k (_rng st)) <> classification_function st ->
  generate_drift fuel st =
  Ret (set_classification_function
         (set_rng st (snd (drift_draws k (_rng st))))
         (fst (drift_draws k (_rng st)))).
Proof.
  intros Hfuel Hbefore Hk. unfold generate_drift.
  destruct (randint 10 (_rng st)) as [n g] eqn:Er.
  assert (Hseq : forall i, drift_seq n g i = drift_draws i (_rng st)).
  { intros [|i]; cbn [drift_seq drift_draws]; rewrite Er; reflexivity. }
  rewrite (drift_loop_first k fuel (classification_function st) n g).
  - rewrite Hseq. destruct (drift_draws k (_rng st)). reflexivity.
  - exact Hfuel.
  - intros i Hi. rewrite Hseq. auto.
  - rewrite Hseq. exact Hk.
Qed.

(** The least index at which a sequence of integers leaves a given value. *)
Lemma first_differing (f : nat -> Z) (c : Z) (k : nat) :
  f k <> c ->
  exists j, (j <= k)%nat /\ f j <> c /\ forall i, (i < j)%nat -> f i = c.
Proof.
  induction k as [k IH] using lt_wf_ind. intros Hk.
  destruct (Forall_Exists_dec (fun i => f i = c)
              (fun i => Z.eq_dec (f i) c) (seq 0 k)) as [Hall|Hex].
  - exists k. split; [lia|]. split; [exact Hk|].
    intros i Hi. rewrite Forall_forall in Hall. apply Hall.
    apply in_seq. lia.
  - apply Exists_exists in Hex as (i & Hin & Hi). apply in_seq in Hin.
    destruct (IH i ltac:(lia) Hi) as (j & Hle & Hj & Hb).
    exists j. split; [lia|]. split; assumption.
Qed.

(** A source that does not repeat the current index for ever lets the loop
    end. *)
Lemma generate_drift_terminates k : forall (st : state G),
  fst (drift_draws k (_rng st)) <> classification_function st ->
  exists fuel st', generate_drift fuel st = Ret st'.
Proof.
  intros st Hk.
  destruct (first_differing (fun i => fst (drift_draws i (_rng st)))
              (classification_function st) k Hk) as (j & _ & Hj & Hbefore).
  exists (S j). eexists. apply (generate_drift_first j); [lia| |exact Hj].
  exact Hbefore.
Qed.

Lemma seq_values_cons (f : nat -> Z) (n : nat) :
  map f (seq 0 (S n)) = f 0%nat :: map (fun i => f (S i)) (seq 0 n).
Proof.
  cbn [seq map]. f_equal. rewrite <- seq_shift, map_map. reflexivity.
Qed.

(** The loop returns the first value, among the one in hand and the later
    draws, that differs from the current index, and only that. *)
Lemma drift_loop_first_other n : forall cur new (g : G),
  match first_other cur (map (fun i => fst (drift_seq new g i)) (seq 0 n)) with
  | Some j => exists g', drift_loop n cur new g = Ret (j, g')
  | None => drift_loop n cur new g = Diverge
  end.
Proof.
  induction n as [|n IH]; intros cur new g; [reflexivity|].
  rewrite seq_values_cons. cbn [first_other drift_loop drift_seq fst].
  destruct (new =? cur)%Z; [|eauto].
  specialize (IH cur (fst (randint 10 g)) (snd (randint 10 g))).
  rewrite (map_ext _ (fun i => fst (drift_seq (fst (randint 10 g))
                                      (snd (randint 10 g)) i)))
    by (intros i; now rewrite <- drift_seq_step with (new := new)).
  destruct (randint 10 g) as [n1 g1]. exact IH.
Qed.

Lemma generate_drift_first_other (k : nat) (st : state G) :
  match first_other (classification_function st) (draws k (_rng st)) with
  | Some j =>
      exists st', generate_drift k st = Ret st' /\
                  classification_function st' = j
  | None => generate_drift k st = Diverge
  end.
Proof.
  unfold generate_drift, draws.
  pose proof (drift_loop_first_other k (classification_function st)
                (fst (randint 10 (_rng st))) (snd (randint 10 (_rng st))))
    as Hl.
  rewrite (map_ext _ (fun i => fst (drift_draws i (_rng st)))) in Hl.
  2:{ intros [|i]; cbn [drift_seq drift_draws]; [|reflexivity].
      now destruct (randint 10 (_rng st)). }
  destruct (randint 10 (_rng st)) as [n0 g0]. cbn [fst snd] in Hl.
  destruct (first_other _ _) as [j|].
  - destruct Hl as [g' ->]. cbn [bind]. eexists. split; reflexivity.
  - rewrite Hl. reflexivity.
Qed.

Lemma first_other_none (cur : Z) (l : list Z) :
  Forall (fun v => v = cur) l -> first_other cur l = None.
Proof.
  induction 1 as [|v l Hv _ IH]; [reflexivity|].
  cbn [first_other]. rewrite Hv, Z.eqb_refl. exact IH.
Qed.

(** On a source that goes on returning the current index the loop never
    ends. *)
Lemma generate_drift_stuck (st : state G) :
  (forall k, fst (drift_draws k (_rng st)) = classification_function st) ->
  forall fuel, generate_drift fuel st = Diverge.
Proof.
  intros Hall fuel.
  pose proof (generate_drift_first_other fuel st) as Hf.
  rewrite first_other_none in Hf; [exact Hf|].
  unfold draws. rewrite Forall_map. apply Forall_forall. intros i _.
  apply Hall.
Qed.

Lemma generate_drift_returns_moved (fuel : nat) (st st' : state G) :
  generate_drift fuel st = Ret st' ->
  exists k, fst (drift_draws k (_rng st)) <> classification_function st.
Proof.
  intros Hrun.
  destruct (Forall_Exists_dec
              (fun i => fst (drift_draws i (_rng st))
                        = classification_function st)
              (fun i => Z.eq_dec (fst (drift_draws i (_rng st)))
                          (classification_function st))
              (seq 0 fuel)) as [Hall|Hex].
  - exfalso.
    pose proof (generate_drift_first_other fuel st) as Hf.
    rewrite first_other_none in Hf; [congruence|].
    unfold draws. rewrite Forall_map. exact Hall.
  - apply Exists_exists in Hex as (k & _ & Hk). eauto.
Qed.

Lemma in_all_draws (l : list Z) :
  Forall (fun v => In v digits) l -> In l (all_draws (length l)).
Proof.
  induction 1 as [|v l Hv _ IH]; cbn [length all_draws]; [now left|].
  apply in_flat_map. exists v. split; [exact Hv|].
  apply in_map. exact IH.
Qed.

Lemma draws_in_all_draws (k : nat) (g : G) : In (draws k g) (all_draws k).
Proof.
  assert (Hlen : length (draws k g) = k)
    by (unfold draws; now rewrite length_map, length_seq).
  rewrite <- Hlen at 2. apply in_all_draws.
  unfold draws. rewrite Forall_map. apply Forall_forall. intros i _.
  assert (Hr : forall g', (0 <= fst (randint 10 g') < 10)%Z)
    by (intros g'; apply randint_range; reflexivity).
  assert (Hd : forall g', (0 <= fst (drift_draws i g') < 10)%Z).
  { induction i as [|i IH]; intros g'; cbn [drift_draws]; auto. }
  specialize (Hd g).
  cbn [digits In]. lia.
Qed.

(** *** The noise step (lines 152-159 and 171-179) *)

Lemma _perturb_value_fst st v lo hi rg :
  fst (_perturb_value st v lo hi rg) =
  if Qltb (noisy st v lo hi rg) lo then lo
  else if Qltb hi (noisy st v lo hi rg) then hi
  else noisy st v lo hi rg.
Proof.
  unfold _perturb_value, noisy. destruct (rand (_rng st)) as [u g].
  reflexivity.
Qed.

(** With [val_min <= val_max] the result is clamped into the interval. *)
Lemma _perturb_value_clamped st v lo hi rg :
  lo <= hi ->
  lo <= fst (_perturb_value st v lo hi rg) /\
  fst (_perturb_value st v lo hi rg) <= hi.
Proof.
  intros Hle. rewrite _perturb_value_fst.
  destruct (Qltb (noisy st v lo hi rg) lo) eqn:E1.
  - split; [apply Qle_refl | exact Hle].
  - apply Qltb_ge in E1.
    destruct (Qltb hi (noisy st v lo hi rg)) eqn:E2.
    + split; [exact Hle | apply Qle_refl].
    + apply Qltb_ge in E2. split; assumption.
Qed.

(** With [val_max < val_min] no value passes both tests: the result is one of
    the two bounds. *)
Lemma _perturb_value_inverted st v lo hi rg :
  hi < lo ->
  fst (_perturb_value st v lo hi rg) =
  if Qltb (noisy st v lo hi rg) lo then lo else hi.
Proof.
  intros Hlt. rewrite _perturb_value_fst.
  destruct (Qltb (noisy st v lo hi rg) lo) eqn:E1; [reflexivity|].
  apply Qltb_ge in E1.
  assert (E2 : Qltb hi (noisy st v lo hi rg) = true).
  { apply Qltb_lt. eapply Qlt_le_trans; eassumption. }
  rewrite E2. reflexivity.
Qed.

Lemma np_round_between (a b : Z) (x : Q) :
  inject_Z a <= x -> x <= inject_Z b ->
  inject_Z a <= np_round x /\ np_round x <= inject_Z b.
Proof.
  intros Ha Hb.
  assert (Hfa : (a <= Qfloor x)%Z).
  { rewrite <- (Qfloor_Z a). apply Qfloor_resp_le. exact Ha. }
  assert (Hfb : (Qfloor x <= b)%Z).
  { rewrite <- (Qfloor_Z b). apply Qfloor_resp_le. exact Hb. }
  pose proof (Qfloor_le x) as Hfl.
  unfold np_round.
  destruct (Qltb (x - inject_Z (Qfloor x)) (1 # 2)) eqn:E1.
  - rewrite <- !Zle_Qle. split; assumption.
  - apply Qltb_ge in E1.
    assert (Hlt : (Qfloor x < b)%Z).
    { destruct (Z.eq_dec (Qfloor x) b) as [E|E]; [|lia].
      exfalso. rewrite E in E1. lra. }
    destruct (Qltb (1 # 2) (x - inject_Z (Qfloor x)));
      [|destruct (Z.even (Qfloor x))];
      rewrite <- !Zle_Qle; split; lia.
Qed.

(** The fields of the perturbed record, one call of [_perturb_value] each. *)
Lemma perturb_fields (st : state G) (r : raw) :
  exists s2 s3 s4 s5 s6 : state G,
    let x := fst (perturb st r) in
    salary x = fst (_perturb_value st (raw_salary r) 20000 150000 None) /\
    (commission x = raw_commission r \/
     exists s1, commission x
                = fst (_perturb_value s1 (raw_commission r) 10000 75000 None)) /\
    age x = np_round (fst (_perturb_value s2 (inject_Z (raw_age r)) 20 80 None)) /\
    s3 = snd (_perturb_value s2 (inject_Z (raw_age r)) 20 80 None) /\
    hvalue x = fst (_perturb_value s3 (raw_hvalue r)
                      (inject_Z ((9 - raw_zipcode r) * 100000)) 0 (Some 135000)) /\
    hyears x = np_round (fst (_perturb_value s4 (inject_Z (raw_hyears r)) 1 30 None)) /\
    loan x = fst (_perturb_value s5 (raw_loan r) 0 500000 None) /\
    s6 = snd (perturb st r) /\
    elevel x = raw_elevel r /\ car x = raw_car r /\ zipcode x = raw_zipcode r.
Proof.
  unfold perturb.
  destruct (_perturb_value st (raw_salary r) 20000 150000 None) as [v1 s1].
  assert (Hc : forall p : Q * state G,
    p = (if Qltb 0 (raw_commission r)
         then _perturb_value s1 (raw_commission r) 10000 75000 None
         else (raw_commission r, s1)) ->
    fst p = raw_commission r \/
    exists s1, fst p = fst (_perturb_value s1 (raw_commission r) 10000 75000 None)).
  { intros p ->. destruct (Qltb 0 (raw_commission r)); [right|left]; eauto. }
  specialize (Hc _ eq_refl).
  destruct (if Qltb 0 (raw_commission r)
            then _perturb_value s1 (raw_commission r) 10000 75000 None
            else (raw_commission r, s1)) as [v2 s2].
  exists s2.
  destruct (_perturb_value s2 (inject_Z (raw_age r)) 20 80 None)
    as [v3 s3] eqn:E3.
  exists s3.
  destruct (_perturb_value s3 (raw_hvalue r)
              (inject_Z ((9 - raw_zipcode r) * 100000)) 0 (Some 135000))
    as [v4 s4] eqn:E4.
  exists s4.
  destruct (_perturb_value s4 (inject_Z (raw_hyears r)) 1 30 None)
    as [v5 s5] eqn:E5.
  exists s5.
  destruct (_perturb_value s5 (raw_loan r) 0 500000 None) as [v6 s6] eqn:E6.
  exists s6.
  cbn [fst snd salary commission age hvalue hyears loan elevel car zipcode]
    in Hc |- *.
  repeat split; auto.
Qed.

(** Every perturbed field other than [hvalue] ends inside its clamp
    interval. *)
Lemma perturb_other_fields_in_range (st : state G) (r : raw) :
  let x := fst (perturb st r) in
  (20000 <= salary x /\ salary x <= 150000) /\
  (commission x = raw_commission r \/
   10000 <= commission x /\ commission x <= 75000) /\
  (20 <= age x /\ age x <= 80) /\
  (1 <= hyears x /\ hyears x <= 30) /\
  (0 <= loan x /\ loan x <= 500000).
Proof.
  destruct (perturb_fields st r)
    as (s2 & s3 & s4 & s5 & s6 & Hs & Hc & Ha & _ & _ & Hy & Hl & _).
  cbv zeta. rewrite Hs, Ha, Hy, Hl.
  split; [apply _perturb_value_clamped; discriminate|].
  split.
  { destruct Hc as [->|[s1 ->]]; [left; reflexivity|right].
    apply _perturb_value_clamped; discriminate. }
  split.
  { apply (np_round_between 20 80);
      apply (_perturb_value_clamped s2 (inject_Z (raw_age r)) 20 80 None);
      discriminate. }
  split.
  { apply (np_round_between 1 30);
      apply (_perturb_value_clamped s4 (inject_Z (raw_hyears r)) 1 30 None);
      discriminate. }
  apply _perturb_value_clamped; discriminate.
Qed.

(** [hvalue] is passed [(9 - zipcode) * 100000] as [val_min] and [0] as
    [val_max]: the perturbed value is one of these two numbers, and it is 0
    as soon as the noisy value reaches [(9 - zipcode) * 100000]. *)
Lemma perturb_hvalue_collapses (st : state G) (r : raw) :
  (0 <= raw_zipcode r < 9)%Z ->
  exists s3 : state G,
    let lo := inject_Z ((9 - raw_zipcode r) * 100000) in
    hvalue (fst (perturb st r)) =
    if Qltb (noisy s3 (raw_hvalue r) lo 0 (Some 135000)) lo then lo else 0.
Proof.
  intros Hz.
  destruct (perturb_fields st r)
    as (s2 & s3 & s4 & s5 & s6 & _ & _ & _ & _ & Hh & _).
  exists s3. cbv zeta in Hh |- *. rewrite Hh.
  apply _perturb_value_inverted.
  change 0 with (inject_Z 0). rewrite <- Zlt_Qlt. lia.
Qed.

End GeneratorProperties.

(** *** Counting the sequences of draws that select an index *)

Lemma all_draws_length k : length (all_draws k) = (10 ^ k)%nat.
Proof.
  induction k as [|k IH]; [reflexivity|].
  cbn [all_draws digits flat_map].
  repeat rewrite length_app. repeat rewrite length_map.
  rewrite IH. cbn [length Nat.pow]. lia.
Qed.

Lemma selects_cons (cur j d : Z) (l : list Z) :
  selects cur j (d :: l) =
  if (d =? cur)%Z then selects cur j l else (d =? j)%Z.
Proof.
  unfold selects. cbn [first_other]. now destruct (d =? cur)%Z.
Qed.

Lemma filter_flat_map_length {A B : Type} (P : B -> bool) (f : A -> list B)
    (l : list A) :
  length (filter P (flat_map f l)) =
  list_sum (map (fun a => length (filter P (f a))) l).
Proof.
  induction l as [|a l IH]; [reflexivity|].
  cbn [flat_map map list_sum]. rewrite filter_app, length_app, IH.
  reflexivity.
Qed.

Lemma filter_map_length {A B : Type} (P : B -> bool) (f : A -> B)
    (l : list A) :
  length (filter P (map f l)) = length (filter (fun a => P (f a)) l).
Proof.
  induction l as [|a l IH]; [reflexivity|].
  cbn [map filter]. destruct (P (f a)); cbn [length]; rewrite IH; reflexivity.
Qed.

Lemma filter_const_length {A : Type} (b : bool) (l : list A) :
  length (filter (fun _ => b) l) = if b then length l else 0%nat.
Proof.
  induction l as [|a l IH]; [now destruct b|].
  cbn [filter]. destruct b; cbn [length]; rewrite IH; reflexivity.
Qed.

Lemma sum_over_digits (cur j : Z) (a b : nat) :
  In cur digits -> In j digits -> j <> cur ->
  list_sum (map (fun d => if (d =? cur)%Z then a
                          else if (d =? j)%Z then b else 0%nat) digits)
  = (a + b)%nat.
Proof.
  intros Hc Hj Hne. cbn [digits In] in Hc, Hj.
  repeat (destruct Hc as [<-|Hc]; [|]); try contradiction;
    repeat (destruct Hj as [<-|Hj]; [|]); try contradiction;
    try congruence; cbn; lia.
Qed.

Lemma count_selecting_succ (cur j : Z) (k : nat) :
  In cur digits -> In j digits -> j <> cur ->
  count_selecting cur j (S k) = (count_selecting cur j k + 10 ^ k)%nat.
Proof.
  intros Hc Hj Hne. unfold count_selecting at 1. cbn [all_draws].
  rewrite filter_flat_map_length.
  rewrite <- (sum_over_digits cur j (count_selecting cur j k) (10 ^ k))
    by assumption.
  f_equal. apply map_ext_in. intros d Hd.
  rewrite filter_map_length.
  rewrite (filter_ext _ _ (fun l => selects_cons cur j d l)).
  destruct (d =? cur)%Z.
  - reflexivity.
  - rewrite filter_const_length, all_draws_length.
    destruct (d =? j)%Z; reflexivity.
Qed.

Lemma count_selecting_closed (cur j : Z) (k : nat) :
  In cur digits -> In j digits -> j <> cur ->
  (9 * count_selecting cur j k + 1 = 10 ^ k)%nat.
Proof.
  intros Hc Hj Hne. induction k as [|k IH].
  - reflexivity.
  - rewrite count_selecting_succ by assumption. cbn [Nat.pow]. lia.
Qed.

Lemma in_digits (j : Z) : (0 <= j < 10)%Z -> In j digits.
Proof.
  intros Hj. cbn [digits In].
  assert (Hc : (j = 0 \/ j = 1 \/ j = 2 \/ j = 3 \/ j = 4 \/ j = 5 \/ j = 6
                \/ j = 7 \/ j = 8 \/ j = 9)%Z) by lia.
  intuition auto.
Qed.

(** C8, as amended.  [generate_drift] never raises.  It has no bound on its
    retries: it returns exactly when the source, sooner or later, yields a
    draw that differs from the current index, and on a source that goes on
    returning the current index it never returns.  When it returns, the new
    index is in 0..9 and differs from the one held before, and nothing but
    the index and the random source has changed, so the generator is as
    valid as it was and the call can be repeated.  The new index is the
    first draw that differs from the current one.  The draws of any source
    form one of the [10 ^ k] sequences of [k] values in 0..9, and each of
    the nine other indices is the one selected on the same number of these
    sequences, [(10 ^ k - 1) / 9]: on all of them but the single sequence
    that repeats the current index [k] times; so uniform draws give a
    uniform new index. *)
Theorem generate_drift_selects_first_other_draw :
  (forall (G : Type) (RS : RandomState G) (fuel : nat) (st : state G),
     ~ raises (generate_drift fuel st)) /\
  (forall (G : Type) (RS : RandomState G) (st : state G),
     ((exists fuel st', generate_drift fuel st = Ret st') <->
      (exists k, fst (drift_draws k (_rng st)) <> classification_function st))
     /\
     ((forall k, fst (drift_draws k (_rng st)) = classification_function st) ->
      forall fuel, generate_drift fuel st = Diverge)) /\
  (forall (G : Type) (RS : RandomState G) (fuel : nat) (st st' : state G),
     generate_drift fuel st = Ret st' ->
     (0 <= classification_function st' < 10)%Z /\
     classification_function st' <> classification_function st /\
     balance_classes st' = balance_classes st /\
     perturbation st' = perturbation st /\
     sample_idx st' = sample_idx st /\
     _next_class_should_be_zero st' = _next_class_should_be_zero st /\
     (valid st -> valid st')) /\
  (forall (G : Type) (RS : RandomState G) (k fuel : nat) (st : state G),
     (k < fuel)%nat ->
     (forall i, (i < k)%nat ->
        fst (drift_draws i (_rng st)) = classification_function st) ->
     fst (drift_draws k (_rng st)) <> classification_function st ->
     generate_drift fuel st =
     Ret (set_classification_function
            (set_rng st (snd (drift_draws k (_rng st))))
            (fst (drift_draws k (_rng st))))) /\
  (forall (G : Type) (RS : RandomState G) (k : nat) (st : state G),
     In (draws k (_rng st)) (all_draws k) /\
     match first_other (classification_function st) (draws k (_rng st)) with
     | Some j =>
         exists st', generate_drift k st = Ret st' /\
                     classification_function st' = j
     | None => generate_drift k st = Diverge
     end) /\
  (forall (cur j : Z) (k : nat),
     (0 <= cur < 10)%Z -> (0 <= j < 10)%Z -> j <> cur ->
     (9 * count_selecting cur j k + 1 = 10 ^ k)%nat).
Proof.
  split; [|split; [|split; [|split; [|split]]]].
  - intros. apply generate_drift_no_raise.
  - intros G RS st. split; [split|].
    + intros (fuel & st' & Hrun). now apply generate_drift_returns_moved in Hrun.
    + intros [k Hk]. now apply (generate_drift_terminates k).
    + apply generate_drift_stuck.
  - intros G RS fuel st st' Hrun.
    apply generate_drift_ret in Hrun as (A & B & C & D & E & F).
    do 6 (split; [assumption|]).
    intros (_ & H1 & H2). unfold valid. rewrite D. auto.
  - intros. now apply generate_drift_first.
  - intros G RS k st. split.
    + apply draws_in_all_draws.
    + apply generate_drift_first_other.
  - intros cur j k Hc Hj Hne.
    apply count_selecting_closed; auto using in_digits.
Qed.

(** A generator with function 0 on the source whose every draw is 0. *)
Definition stuck_generator : state unit := mkState 0 false 0 0 false tt.

(** C8, the claim as stated fails: on a source stuck on the current index
    [generate_drift] does not terminate. *)
Lemma generate_drift_loops_on_stuck_source :
  ~ exists fuel st', generate_drift fuel stuck_generator = Ret st'.
Proof.
  intros (fuel & st' & Hrun).
  assert (Hd : forall n new, drift_loop n 0 new tt = Diverge \/
                             exists v, drift_loop n 0 new tt = Ret (v, tt) /\
                                       v = new /\ new <> 0%Z).
  { induction n as [|n IH]; intros new; [now left|].
    cbn [drift_loop]. destruct (Z.eqb_spec new 0) as [->|Hne].
    - cbn [randint Stuck]. destruct (IH 0%Z) as [Hdiv|(v & _ & -> & Hv)];
        [now left|congruence].
    - right. eauto. }
  unfold generate_drift, stuck_generator in Hrun.
  cbn [_rng classification_function randint Stuck] in Hrun.
  destruct (Hd fuel 0%Z) as [Hdiv|(v & _ & _ & Hv)]; [|congruence].
  rewrite Hdiv in Hrun. discriminate.
Qed.

(** ** Concrete runs on scripted draws *)

(** C1. On [noisy_generator] the candidate has zipcode 2 and house value
    875000, inside the generated range [350000, 1050000); the noise draw
    adds nothing, and the yielded [hvalue] is 0, outside that range: the
    call clamps with [val_min = 700000] and [val_max = 0]. *)
Theorem perturbed_hvalue_leaves_range :
  raw_zipcode (fst (draw (_rng noisy_generator))) = 2%Z /\
  raw_hvalue (fst (draw (_rng noisy_generator))) == 875000 /\
  hvalue_generated 2 (raw_hvalue (fst (draw (_rng noisy_generator)))) /\
  exists x y st',
    next_sample 1 noisy_generator = Ret (x, y, st') /\
    y = 1%Z /\
    zipcode x = 2%Z /\
    20000 <= salary x /\ salary x <= 150000 /\
    hvalue x == 0 /\
    ~ hvalue_generated (zipcode x) (hvalue x).
Proof.
  split; [reflexivity|]. split; [reflexivity|].
  split; [split; [discriminate | reflexivity]|].
  eexists _, _, _. split; [vm_compute; reflexivity|].
  cbn [zipcode salary hvalue].
  split; [reflexivity|].
  split; [reflexivity|]. split; [discriminate|]. split; [discriminate|].
  split; [reflexivity|].
  intros [Hlo _]. revert Hlo. vm_compute. intros Hlo. apply Hlo. reflexivity.
Qed.

(** A generator with function 4 and noise, about to draw a candidate aged 39
    with a salary of 85000 and a loan of 200000 (label 1), and then, for the
    age, a noise draw of 0.6, which adds 6. *)
Definition aging_generator : state (list Z) :=
  mkState 4 false (1 # 2) 0 false
    [500; 19; 0; 0; 0; 0; 0; 400; 500; 600; 500; 500; 500]%Z.

(** C6, the claim as stated fails: with noise, function 4 yields a record of
    age 45, in the bracket 40..59, with label 1; the label is that of the
    age drawn, 39. *)
Lemma noisy_age_in_middle_bracket_has_label_1 :
  raw_age (fst (draw (_rng aging_generator))) = 39%Z /\
  exists x st',
    next_sample 1 aging_generator = Ret (x, 1%Z, st') /\
    age x == 45 /\ 40 <= age x /\ age x < 60 /\
    salary x == 85000 /\ loan x == 200000.
Proof.
  split; [reflexivity|].
  eexists _, _. split; [vm_compute; reflexivity|].
  cbn [age salary loan]. repeat split; try reflexivity; discriminate.
Qed.

(** C7, the claim as stated fails: in binary64, when [rand()] returns its
    largest value, which is below 1, line 128 gives a salary of exactly
    150000, not below it. *)
Lemma salary_reaches_150000 :
  PrimFloat.leb 0 Binary64.largest_rand = true /\
  PrimFloat.ltb Binary64.largest_rand 1 = true /\
  Binary64.salary Binary64.largest_rand = 150000%float /\
  PrimFloat.ltb (Binary64.salary Binary64.largest_rand) 150000 = false.
Proof. repeat split. Qed.


(** Function 4 at age 45 and salary 100000, with a loan inside the range the
    inner test of that bracket would accept if it looked at the loan alone;
    and an accepted candidate of age 45 with function 4 active. *)
Lemma function_4_middle_bracket_of_drawn_age_witness :
  ((40 <= 45 < 60)%Z /\ 100000 < 200000 /\
   _classification_function_4 100000 0 45%Z 0%Z 0%Z 0%Z 0 1%Z 350000 = 0%Z) /\
  (exists r st',
     rejection_loop 1 (mkState 4 false 0 0 false [500; 25; 0; 0; 2; 750; 0; 0]%Z)
     = Ret (r, 0%Z, st') /\ raw_age r = 45%Z /\ raw_salary r <= 150000) /\
  (exists x st',
     next_sample 1 (mkState 4 false 0 0 false [500; 25; 0; 0; 2; 750; 0; 0]%Z)
     = Ret (x, 0%Z, st') /\ age x == 45 /\ salary x <= 150000).
Proof.
  split; [|split].
  - split; [lia|]. split; [reflexivity|].
    apply (proj1 (function_4_middle_bracket_of_drawn_age (G := list Z)));
      [lia | reflexivity].
  - eexists _, _. split; [vm_compute; reflexivity|].
    split; [reflexivity|].
    eapply proj1.
    eapply (proj1 (proj2 (function_4_middle_bracket_of_drawn_age (G := list Z)))
              1%nat
              (mkState 4 false 0 0 false [500; 25; 0; 0; 2; 750; 0; 0]%Z)).
    + reflexivity.
    + vm_compute; reflexivity.
    + cbn; lia.
  - eexists _, _. split; [vm_compute; reflexivity|].
    split; [reflexivity|].
    eapply proj1.
    eapply (proj2 (proj2 (function_4_middle_bracket_of_drawn_age (G := list Z)))
              1%nat
              (mkState 4 false 0 0 false [500; 25; 0; 0; 2; 750; 0; 0]%Z)).
    + reflexivity.
    + cbn. discriminate.
    + vm_compute; reflexivity.
    + cbn. discriminate.
    + reflexivity.
Defined.

Lemma balance_classes_alternates_witness :
  exists l st',
    take 1 2 balanced_generator = Ret (l, st') /\
    map snd l = [1; 0]%Z /\
    (Z.abs (count_label 0 (map snd l) - count_label 1 (map snd l)) <= 1)%Z /\
    _next_class_should_be_zero st' = _next_class_should_be_zero balanced_generator.
Proof.
  eexists _, _. split; [vm_compute; reflexivity|].
  split; [reflexivity|]. split.
  - refine (proj1 (proj2 (balance_classes_alternates (G := list Z)))
              1%nat 2%nat balanced_generator _ _ eq_refl _).
    vm_compute; reflexivity.
  - reflexivity.
Defined.

Lemma generate_drift_selects_first_other_draw_witness :
  (exists fuel st', generate_drift fuel drifting_generator = Ret st') /\
  generate_drift 3 drifting_generator
  = Ret (mkState 7 false 0 0 false []) /\
  (9 * count_selecting 0 7 2 + 1 = 10 ^ 2)%nat.
Proof.
  pose proof generate_drift_selects_first_other_draw
    as (_ & Hterm & _ & Hfirst & _ & Hcount).
  split; [|split].
  - apply (proj1 (Hterm (list Z) Tape drifting_generator)).
    exists 2%nat. discriminate.
  - apply (Hfirst (list Z) Tape 2%nat 3%nat drifting_generator).
    + lia.
    + intros [|[|i]] Hi; [reflexivity | reflexivity | lia].
    + discriminate.
  - apply (Hcount 0%Z 7%Z 2%nat); lia.
Defined.

(** A generator built with valid arguments, before any sample is pulled. *)
Lemma init_raises_iff_invalid_witness :
  __init__ 3 [500; 3]%Z true (1 # 4) = Ret (mkState 3 true (1 # 4) 0 false [500; 3]%Z) /\
  ~ raises (next_sample 2 (mkState 3 true (1 # 4) 0 false [500; 3]%Z)) /\
  ~ raises (generate_drift 2 (mkState 3 true (1 # 4) 0 false [500; 3]%Z)).
Proof.
  split; [reflexivity|].
  exact (proj2 (proj2 (init_raises_iff_invalid (G := list Z)))
           3%Z [500; 3]%Z true (1 # 4) _ _ 2%nat eq_refl (reach_start _)).
Defined.


(** ** Further properties of the classification functions *)

Lemma b2z_binary (b : bool) : Z.b2z b = 0%Z \/ Z.b2z b = 1%Z.
Proof. destruct b; auto. Qed.

Lemma between_spec (lo x hi : Q) :
  between lo x hi = true <-> lo <= x /\ x <= hi.
Proof.
  unfold between. rewrite andb_true_iff, !Qle_bool_iff. reflexivity.
Qed.

Lemma Qle_bool_Qeq_r (lo x y : Q) : x == y -> Qle_bool lo x = Qle_bool lo y.
Proof.
  intros E. apply eq_true_iff_eq. rewrite !Qle_bool_iff, E. reflexivity.
Qed.

Lemma Qle_bool_Qeq_l (hi x y : Q) : x == y -> Qle_bool x hi = Qle_bool y hi.
Proof.
  intros E. apply eq_true_iff_eq. rewrite !Qle_bool_iff, E. reflexivity.
Qed.

Lemma between_Qeq (lo hi x y : Q) :
  x == y -> between lo x hi = between lo y hi.
Proof.
  intros E. unfold between.
  now rewrite (Qle_bool_Qeq_r lo x y E), (Qle_bool_Qeq_l hi x y E).
Qed.

Lemma classifier_values_binary (i : Z) (f : classifier)
    (salary commission : Q) (age elevel car zipcode : Z) (hvalue : Q)
    (hyears : Z) (loan : Q) :
  list_getitem _classification_functions i = Ret f ->
  let y := f salary commission age elevel car zipcode hvalue hyears loan in
  y = 0%Z \/ y = 1%Z.
Proof.
  intros Hf.
  assert (Hin : In f _classification_functions).
  { unfold list_getitem in Hf.
    destruct ((_ <? 0)%Z || _); [discriminate|].
    destruct (nth_error _ _) as [f'|] eqn:E; [|discriminate].
    injection Hf as <-. eapply nth_error_In; exact E. }
  cbv zeta. unfold _classification_functions in Hin. cbn [In] in Hin.
  repeat (destruct Hin as [<-|Hin]); try contradiction;
    unfold _classification_function_0, _classification_function_1,
      _classification_function_2, _classification_function_3,
      _classification_function_4, _classification_function_5,
      _classification_function_6, _classification_function_7,
      _classification_function_8, _classification_function_9;
    cbv zeta;
    repeat match goal with
           | |- context [if ?c then _ else _] => destruct c
           end;
    auto using b2z_binary.
Qed.

(** In the branch [age >= 60] of function 2 the closing parenthesis of
    [int(...)] comes before [or (elevel == 4)]; the value is still 1 exactly
    for the education levels 2, 3 and 4, as in the two other branches'
    pattern. *)
Theorem function_2_senior_levels
    (salary commission : Q) (age elevel car zipcode : Z) (hvalue : Q)
    (hyears : Z) (loan : Q) :
  (60 <= age)%Z ->
  _classification_function_2 salary commission age elevel car zipcode hvalue
    hyears loan
  = Z.b2z ((elevel =? 2)%Z || (elevel =? 3)%Z || (elevel =? 4)%Z).
Proof.
  intros Hage. unfold _classification_function_2.
  destruct (Z.ltb_spec age 40); [lia|].
  destruct (Z.ltb_spec age 60); [lia|].
  cbv zeta.
  destruct (elevel =? 2)%Z, (elevel =? 3)%Z, (elevel =? 4)%Z; reflexivity.
Qed.

(** Function 5 is function 1 on the total of salary and commission: without
    a commission the two agree, and so they do on every drawn candidate
    whose salary is at least 75000. *)
Theorem function_5_without_commission :
  (forall (salary commission : Q) (age elevel car zipcode : Z) (hvalue : Q)
          (hyears : Z) (loan : Q),
     commission == 0 ->
     _classification_function_5 salary commission age elevel car zipcode
       hvalue hyears loan
     = _classification_function_1 salary commission age elevel car zipcode
         hvalue hyears loan) /\
  (forall (G : Type) (RS : RandomState G) (g : G),
     75000 <= raw_salary (fst (draw g)) ->
     apply_classifier _classification_function_5 (fst (draw g))
     = apply_classifier _classification_function_1 (fst (draw g))).
Proof.
  assert (Hfun : forall (salary commission : Q) (age elevel car zipcode : Z)
                        (hvalue : Q) (hyears : Z) (loan : Q),
     commission == 0 ->
     _classification_function_5 salary commission age elevel car zipcode
       hvalue hyears loan
     = _classification_function_1 salary commission age elevel car zipcode
         hvalue hyears loan).
  { intros salary commission age elevel car zipcode hvalue hyears loan Hc.
    unfold _classification_function_5, _classification_function_1. cbv zeta.
    assert (E : salary + commission == salary) by (rewrite Hc; ring).
    now rewrite !(between_Qeq _ _ _ _ E). }
  split; [exact Hfun|].
  intros G RS g Hsal. unfold apply_classifier. apply Hfun.
  pose proof (draw_ranges g) as (_ & _ & _ & _ & _ & _ & _ & Hc & _).
  exact (Hc Hsal).
Qed.

(** Function 4 on salaries below 200000, which all drawn salaries are: the
    label is 1 exactly for the young with a salary in [50000, 100000] and a
    loan in [100000, 300000], and for the old with a loan in the range their
    salary bracket asks for.  Nobody aged 40 to 59 gets label 1, and nobody
    under 40 outside the salary bracket. *)
Theorem function_4_on_drawn_salaries
    (salary commission : Q) (age elevel car zipcode : Z) (hvalue : Q)
    (hyears : Z) (loan : Q) :
  salary < 200000 ->
  (_classification_function_4 salary commission age elevel car zipcode hvalue
     hyears loan = 1%Z
   <->
   ((age < 40)%Z /\ (50000 <= salary /\ salary <= 100000) /\
    (100000 <= loan /\ loan <= 300000)) \/
   ((60 <= age)%Z /\ (25000 <= salary /\ salary <= 75000) /\
    (300000 <= loan /\ loan <= 500000)) \/
   ((60 <= age)%Z /\ ~ (25000 <= salary /\ salary <= 75000) /\
    (75000 <= loan /\ loan <= 300000))).
Proof.
  intros Hsal. unfold _classification_function_4.
  assert (E2 : Qle_bool 200000 salary = false) by (apply Qle_bool_false; lra).
  assert (E3 : Qle_bool 300000 salary = false) by (apply Qle_bool_false; lra).
  rewrite E2, E3. cbn [andb Z.b2z].
  assert (Hb : forall b : bool, Z.b2z b = 1%Z <-> b = true)
    by (intros []; cbn; split; congruence).
  destruct (Z.ltb_spec age 40) as [Ha|Ha].
  - destruct (between 50000 salary 100000) eqn:Eb.
    + apply between_spec in Eb. rewrite Hb.
      change (Qle_bool 100000 loan && Qle_bool loan 300000)
        with (between 100000 loan 300000).
      rewrite between_spec. split; [intros; left; tauto|].
      intros [H1|[H1|H1]]; [tauto | lia | lia].
    + split; [discriminate|].
      intros [(_ & H1 & _)|[H1|H1]]; [|lia|lia].
      apply between_spec in H1. congruence.
  - destruct (Z.ltb_spec age 60) as [Hb60|Hb60].
    + destruct (between 75000 salary 125000); cbn;
        (split; [discriminate|]); intros [H1|[H1|H1]]; lia.
    + destruct (between 25000 salary 75000) eqn:Eb.
      * apply between_spec in Eb. rewrite Hb.
        change (Qle_bool 300000 loan && Qle_bool loan 500000)
          with (between 300000 loan 500000).
        rewrite between_spec. split; [intros; right; left; tauto|].
        intros [H1|[H1|H1]]; [lia | tauto | tauto].
      * assert (Hn : ~ (25000 <= salary /\ salary <= 75000)).
        { intros H1. apply between_spec in H1. congruence. }
        rewrite Hb.
        change (Qle_bool 75000 loan && Qle_bool loan 300000)
          with (between 75000 loan 300000).
        rewrite between_spec. split; [intros; right; right; tauto|].
        intros [H1|[H1|H1]]; [lia | tauto | tauto].
Qed.


(** ** Further properties of the generator *)

(** The candidates the rejection loop goes through: the [k+1]-th consecutive
    call of [draw] from [g]. *)
Fixpoint nth_draw {G : Type} `{RandomState G} (k : nat) (g : G) : raw * G :=
  match k with
  | O => draw g
  | S k' => nth_draw k' (snd (draw g))
  end.

(** What a consumer does with a generator between two observations. *)
Inductive action : Type := Pull | Drift.

(** A consumer that pulls samples and injects drifts in the given order;
    the result is the list of the pairs pulled. *)
Fixpoint run {G : Type} `{RandomState G} (fuel : nat) (acts : list action)
    (st : state G) : outcome (list (features * Z) * state G) :=
  match acts with
  | [] => Ret ([], st)
  | Pull :: rest =>
      do (x, y, st) <- next_sample fuel st;
      do (l, st) <- run fuel rest st;
      Ret ((x, y) :: l, st)
  | Drift :: rest =>
      do st <- generate_drift fuel st;
      run fuel rest st
  end.

Definition is_pull (a : action) : bool :=
  match a with
  | Pull => true
  | Drift => false
  end.

Section MoreGeneratorProperties.
Context {G : Type} `{RandomState G}.

(** Each of the ten functions returns 0 or 1, on any nine values, and so
    every yielded label is 0 or 1, with or without balancing. *)
Theorem classification_functions_are_binary :
  (forall (i : Z) (f : classifier)
          (salary commission : Q) (age elevel car zipcode : Z) (hvalue : Q)
          (hyears : Z) (loan : Q),
     list_getitem _classification_functions i = Ret f ->
     let y := f salary commission age elevel car zipcode hvalue hyears loan in
     y = 0%Z \/ y = 1%Z) /\
  (forall (fuel : nat) (st st' : state G) (x : features) (y : Z),
     next_sample fuel st = Ret (x, y, st') -> y = 0%Z \/ y = 1%Z).
Proof.
  split.
  - intros. now apply (classifier_values_binary i).
  - intros fuel st st' x y Hrun.
    apply next_sample_ret in Hrun as (r & st1 & Hloop & _).
    apply rejection_loop_ret in Hloop as (_ & (f & Hf & ->) & _).
    unfold apply_classifier.
    exact (classifier_values_binary _ f _ _ _ _ _ _ _ _ _ Hf).
Qed.

Lemma draw_hvalue_generated (g : G) :
  let r := fst (draw g) in
  hvalue_generated (raw_zipcode r) (raw_hvalue r) /\
  50000 <= raw_hvalue r /\ raw_hvalue r < 1350000.
Proof.
  unfold draw.
  destruct (rand g) as [u1 g1].
  destruct (if Qle_bool 75000 (20000 + 130000 * u1) then (0, g1)
            else let (u, g0) := rand g1 in (10000 + 75000 * u, g0))
    as [c g2].
  destruct (randint 61 g2) as [k1 g3].
  destruct (randint 5 g3) as [el g4].
  destruct (randint 20 g4) as [cr g5].
  pose proof (randint_range 9 g5 eq_refl) as Hz.
  destruct (randint 9 g5) as [zp g6]. cbn [fst] in Hz.
  pose proof (rand_range g6) as Hu.
  destruct (rand g6) as [u3 g7]. cbn [fst] in Hu.
  destruct (randint 30 g7) as [k2 g8].
  destruct (rand g8) as [u4 g9].
  cbv zeta. cbn [fst raw_zipcode raw_hvalue]. unfold hvalue_generated.
  assert (Hc : (zp = 0 \/ zp = 1 \/ zp = 2 \/ zp = 3 \/ zp = 4 \/ zp = 5
                \/ zp = 6 \/ zp = 7 \/ zp = 8)%Z) by lia.
  repeat (destruct Hc as [->|Hc]); try subst zp;
    repeat match goal with
           | |- context [inject_Z ?z] =>
               let z' := eval vm_compute in z in
               progress change (inject_Z z) with (inject_Z z')
           end;
    unfold inject_Z; repeat split; lra.
Qed.

(** The house value of a candidate (line 134), which depends on the zipcode
    drawn just before: between 50000 and 150000 times [9 - zipcode], hence
    between 50000 and 1350000.  The upper bound is reached in binary64:
    zipcode 0 with the largest [rand()] gives 1350000. *)
Theorem draw_hvalue_in_range :
  (forall g : G,
     let r := fst (draw g) in
     hvalue_within (raw_zipcode r) (raw_hvalue r) /\
     50000 <= raw_hvalue r /\ raw_hvalue r <= 1350000) /\
  Binary64.hvalue 0 Binary64.largest_rand = 1350000%float.
Proof.
  split; [|reflexivity].
  intros g. cbv zeta.
  destruct (draw_hvalue_generated g) as ((Hg0 & Hg1) & Hlo & Hhi).
  split; [split; [exact Hg0 | apply Qlt_le_weak; exact Hg1]|].
  split; [exact Hlo | apply Qlt_le_weak; exact Hhi].
Qed.


Lemma np_round_integer (x : Q) : exists k : Z, np_round x = inject_Z k.
Proof.
  unfold np_round.
  destruct (Qltb _ _); [eauto|].
  destruct (Qltb _ _); [eauto|].
  destruct (Z.even _); eauto.
Qed.

Lemma rounded_between (a b : Z) (x : Q) :
  inject_Z a <= x -> x <= inject_Z b ->
  exists k : Z, np_round x = inject_Z k /\ (a <= k <= b)%Z.
Proof.
  intros Ha Hb.
  destruct (np_round_between a b x Ha Hb) as [H1 H2].
  destruct (np_round_integer x) as [k Hk]. exists k.
  rewrite Hk in H1, H2. rewrite <- Zle_Qle in H1, H2. auto.
Qed.

Lemma raw_commission_cases (g : G) :
  raw_commission (fst (draw g)) == 0 \/
  (10000 <= raw_commission (fst (draw g)) /\
   raw_commission (fst (draw g)) < 85000).
Proof.
  pose proof (draw_ranges g) as (_ & _ & _ & _ & _ & _ & _ & Hc0 & Hc1).
  destruct (Qlt_le_dec (raw_salary (fst (draw g))) 75000); auto.
Qed.

(** Without noise ([perturbation > 0.0] fails) the yielded record is the
    accepted candidate as drawn, and the random source is not touched after
    the rejection loop; the yielded house value is then within the interval
    of its zipcode. *)
Theorem no_noise_yields_the_draw (fuel : nat) (st st' : state G)
    (x : features) (y : Z) :
  perturbation st <= 0 ->
  next_sample fuel st = Ret (x, y, st') ->
  exists r,
    rejection_loop fuel (set_sample_idx st (sample_idx st + 1))
    = Ret (r, y, st') /\
    x = unperturbed r /\
    hvalue_within (zipcode x) (hvalue x).
Proof.
  intros Hp Hrun.
  apply next_sample_ret in Hrun as (r & st1 & Hloop & _ & Hx).
  pose proof (rejection_loop_ret _ _ _ _ _ Hloop)
    as ((g & Hr) & _ & _ & _ & Hp1 & _).
  cbn in Hp1. rewrite Hp1 in Hx.
  rewrite (proj2 (Qltb_ge 0 (perturbation st)) Hp) in Hx.
  injection Hx as -> ->. exists r. subst r.
  split; [exact Hloop|]. split; [reflexivity|].
  cbn [unperturbed zipcode hvalue].
  destruct (draw_hvalue_generated g) as ((Hg0 & Hg1) & _).
  split; [exact Hg0 | apply Qlt_le_weak; exact Hg1].
Qed.

(** The ranges of a yielded record, with or without noise, for every field
    but [hvalue]: the categorical fields are the drawn ones, [age] and
    [hyears] are whole numbers, and the noise never takes a field out of the
    interval it is clamped to. *)
Theorem yielded_record_in_range (fuel : nat) (st st' : state G)
    (x : features) (y : Z) :
  next_sample fuel st = Ret (x, y, st') ->
  (20000 <= salary x /\ salary x <= 150000) /\
  (commission x == 0 \/ (10000 <= commission x /\ commission x < 85000)) /\
  (exists k : Z, age x = inject_Z k /\ (20 <= k <= 80)%Z) /\
  (0 <= elevel x < 5)%Z /\
  (0 <= car x < 20)%Z /\
  (0 <= zipcode x < 9)%Z /\
  (exists k : Z, hyears x = inject_Z k /\ (1 <= k <= 30)%Z) /\
  (0 <= loan x /\ loan x <= 500000).
Proof.
  intros Hrun.
  apply next_sample_ret in Hrun as (r & st1 & Hloop & _ & Hx).
  apply rejection_loop_ret in Hloop as ((g & ->) & _).
  pose proof (draw_ranges g)
    as ((Hs0 & Hs1) & Ha & He & Hc & Hz & Hy & (Hl0 & Hl1) & _).
  pose proof (raw_commission_cases g) as Hcom.
  destruct (Qltb 0 (perturbation st1)).
  - pose proof (perturb_other_fields_in_range st1 (fst (draw g))) as Hp.
    destruct (perturb_fields st1 (fst (draw g)))
      as (s2 & s3 & s4 & s5 & s6 & _ & _ & Hage & _ & _ & Hhy & _ & _
          & Hel & Hcar & Hzip).
    cbv zeta in Hp, Hage, Hhy, Hel, Hcar, Hzip.
    assert (Ex : x = fst (perturb st1 (fst (draw g)))) by now rewrite <- Hx.
    rewrite <- Ex in *. clear Hx Ex.
    destruct Hp as (Hsal & Hcm & _ & _ & Hloan).
    split; [exact Hsal|]. split.
    { destruct Hcm as [->|[Hc0 Hc1]]; [exact Hcom|].
      right. split; [exact Hc0|]. lra. }
    split.
    { rewrite Hage. apply (rounded_between 20 80);
        apply (_perturb_value_clamped s2 (inject_Z (raw_age (fst (draw g))))
                 20 80 None); discriminate. }
    rewrite Hel, Hcar, Hzip. do 3 (split; [assumption|]).
    split; [|exact Hloan].
    rewrite Hhy. apply (rounded_between 1 30);
      apply (_perturb_value_clamped s4 (inject_Z (raw_hyears (fst (draw g))))
               1 30 None); discriminate.
  - injection Hx as -> _. cbn [unperturbed salary commission age elevel car
                               zipcode hyears loan].
    split; [split; lra|]. split; [exact Hcom|].
    split; [eauto|]. do 3 (split; [assumption|]).
    split; [eauto|]. split; lra.
Qed.


Lemma next_sample_settings (fuel : nat) (st st' : state G) x y :
  next_sample fuel st = Ret (x, y, st') ->
  classification_function st' = classification_function st /\
  balance_classes st' = balance_classes st /\
  perturbation st' = perturbation st /\
  sample_idx st' = (sample_idx st + 1)%Z.
Proof.
  intros Hrun.
  apply next_sample_ret in Hrun as (r & st1 & Hloop & Hsame & _).
  apply rejection_loop_ret in Hloop as (_ & _ & Hc & Hb & Hp & Hi & _).
  cbn in Hc, Hb, Hp, Hi.
  destruct Hsame as (Hc' & Hb' & Hp' & Hi' & _).
  repeat split; congruence.
Qed.

Lemma run_invariants (fuel : nat) (acts : list action) :
  forall (st st' : state G) l,
    run fuel acts st = Ret (l, st') ->
    balance_classes st' = balance_classes st /\
    perturbation st' = perturbation st /\
    length l = length (filter is_pull acts) /\
    sample_idx st' = (sample_idx st + Z.of_nat (length l))%Z /\
    (balance_classes st = true ->
     map snd l = alternating (length l) (_next_class_should_be_zero st)).
Proof.
  induction acts as [|[|] rest IH]; intros st st' l Hrun; cbn [run] in Hrun.
  - injection Hrun as <- <-. cbn. repeat split; auto; lia.
  - destruct (next_sample fuel st) as [[[x y] st1]| |] eqn:Hn;
      cbn [bind] in Hrun; try discriminate.
    destruct (run fuel rest st1) as [[l1 st2]| |] eqn:Hr;
      cbn [bind] in Hrun; try discriminate.
    injection Hrun as <- <-.
    apply IH in Hr as (Hb & Hp & Hlen & Hidx & Halt).
    pose proof (next_sample_settings _ _ _ _ _ Hn) as (_ & Hb1 & Hp1 & Hi1).
    cbn [length filter is_pull map snd alternating].
    repeat split; try congruence; try lia.
    intros Hbal.
    apply next_sample_balanced in Hn as (_ & Ht & ->); [|exact Hbal].
    rewrite Halt by congruence. now rewrite Ht.
  - destruct (generate_drift fuel st) as [st1| |] eqn:Hd;
      cbn [bind] in Hrun; try discriminate.
    apply IH in Hrun as (Hb & Hp & Hlen & Hidx & Halt).
    apply generate_drift_ret in Hd as (_ & _ & Hb1 & Hp1 & Hi1 & Ht1).
    cbn [filter is_pull].
    repeat split; try congruence.
    intros Hbal. rewrite Halt by congruence. now rewrite Ht1.
Qed.

Lemma alternating_nth (n : nat) : forall (b : bool) (k : nat),
  (k < n)%nat ->
  nth k (alternating n b) 0%Z
  = if Bool.eqb b (Nat.even k) then 0%Z else 1%Z.
Proof.
  induction n as [|n IH]; intros b k Hk; [lia|].
  destruct k as [|k]; cbn [alternating nth].
  - now destruct b.
  - rewrite IH by lia. rewrite Nat.even_succ, <- Nat.negb_even.
    now destruct b, (Nat.even k).
Qed.

(** [sample_idx] counts the samples yielded: each pull adds one to it,
    however many candidates the rejection loop went through, and a drift
    leaves it alone.  On a generator fresh from [__init__] it is the number
    of samples pulled so far. *)
Theorem sample_idx_counts_pulls :
  (forall (fuel : nat) (acts : list action) (st st' : state G) l,
     run fuel acts st = Ret (l, st') ->
     length l = length (filter is_pull acts) /\
     sample_idx st' = (sample_idx st + Z.of_nat (length l))%Z) /\
  (forall cf (g : G) b p st0 (fuel : nat) (acts : list action) st' l,
     __init__ cf g b p = Ret st0 ->
     run fuel acts st0 = Ret (l, st') ->
     sample_idx st' = Z.of_nat (length l)).
Proof.
  split.
  - intros fuel acts st st' l Hrun.
    apply run_invariants in Hrun as (_ & _ & Hl & Hi & _). auto.
  - intros cf g b p st0 fuel acts st' l Hinit Hrun.
    apply __init___ret in Hinit as (-> & _).
    apply run_invariants in Hrun as (_ & _ & _ & Hi & _). exact Hi.
Qed.

(** Drift injection does not disturb the balancing: whatever the order of
    pulls and drifts on a balanced generator, the labels pulled alternate,
    starting with the one the toggle asks for, and the numbers of labels 0
    and 1 differ by at most one. *)
Theorem alternation_survives_drift (fuel : nat) (acts : list action)
    (st st' : state G) l :
  balance_classes st = true ->
  run fuel acts st = Ret (l, st') ->
  map snd l = alternating (length l) (_next_class_should_be_zero st) /\
  (Z.abs (count_label 0 (map snd l) - count_label 1 (map snd l)) <= 1)%Z.
Proof.
  intros Hb Hrun.
  apply run_invariants in Hrun as (_ & _ & _ & _ & Halt).
  specialize (Halt Hb). split; [exact Halt|]. rewrite Halt.
  pose proof (alternating_counts (length l) (_next_class_should_be_zero st))
    as Hc.
  cbv zeta in Hc. destruct (_next_class_should_be_zero st); lia.
Qed.

(** A balanced generator fresh from [__init__] starts with label 1: the
    sample of rank [k] (from 0) has label 1 when [k] is even and 0 when it
    is odd, drifts or not. *)
Theorem fresh_balanced_generator_starts_with_1 cf (g : G) p st0
    (fuel : nat) (acts : list action) st' l (k : nat) :
  __init__ cf g true p = Ret st0 ->
  run fuel acts st0 = Ret (l, st') ->
  (k < length l)%nat ->
  nth k (map snd l) 0%Z = if Nat.even k then 1%Z else 0%Z.
Proof.
  intros Hinit Hrun Hk.
  apply __init___ret in Hinit as (-> & _).
  apply run_invariants in Hrun as (_ & _ & _ & _ & Halt).
  rewrite (Halt eq_refl). cbn [_next_class_should_be_zero].
  rewrite alternating_nth by exact Hk. now destruct (Nat.even k).
Qed.

Lemma next_sample_unbalanced_returns (fuel : nat) (st : state G) :
  balance_classes st = false ->
  (0 <= classification_function st < 10)%Z ->
  exists x y st', next_sample (S fuel) st = Ret (x, y, st').
Proof.
  intros Hb Hcf. unfold next_sample.
  rewrite rejection_loop_unbalanced by exact Hb.
  cbn [set_sample_idx classification_function _rng].
  destruct (list_getitem_classifier _ Hcf) as [f ->]. cbn [bind].
  match goal with
  | |- context [if ?c then ?a else ?b] => destruct (if c then a else b)
  end.
  eauto.
Qed.

(** Without balancing a pull never blocks: from a generator whose function
    index is in 0..9, any number of samples is obtained, each from one
    candidate. *)
Theorem unbalanced_generator_never_blocks (fuel n : nat) (st : state G) :
  balance_classes st = false ->
  (0 <= classification_function st < 10)%Z ->
  exists l st', take (S fuel) n st = Ret (l, st') /\ length l = n.
Proof.
  revert st. induction n as [|n IH]; intros st Hb Hcf; cbn [take].
  - exists [], st. auto.
  - destruct (next_sample_unbalanced_returns fuel st Hb Hcf)
      as (x & y & st1 & Hn).
    rewrite Hn. cbn [bind].
    pose proof (next_sample_settings _ _ _ _ _ Hn) as (Hc1 & Hb1 & _).
    destruct (IH st1) as (l & st2 & Ht & Hlen); [congruence|lia|].
    rewrite Ht. cbn [bind]. exists ((x, y) :: l), st2.
    split; [reflexivity|]. cbn. now rewrite Hlen.
Qed.


(** The label the balancing asks for next. *)
Definition wanted_label (st : state G) : Z :=
  if _next_class_should_be_zero st then 0%Z else 1%Z.

Lemma acceptance_test (b : bool) (group : Z) :
  (b && (group =? 0)%Z) || (negb b && (group =? 1)%Z)
  = (group =? (if b then 0 else 1))%Z.
Proof. destruct b; cbn; [now rewrite orb_false_r | reflexivity]. Qed.

Lemma rejection_loop_balanced_step (fuel : nat) (st : state G) f :
  balance_classes st = true ->
  list_getitem _classification_functions (classification_function st) = Ret f ->
  rejection_loop (S fuel) st =
  if (apply_classifier f (fst (draw (_rng st))) =? wanted_label st)%Z
  then Ret (fst (draw (_rng st)), apply_classifier f (fst (draw (_rng st))),
            set_next_class_should_be_zero
              (set_rng st (snd (draw (_rng st))))
              (negb (_next_class_should_be_zero st)))
  else rejection_loop fuel (set_rng st (snd (draw (_rng st)))).
Proof.
  intros Hb Hf. cbn [rejection_loop].
  destruct (draw (_rng st)) as [r g]. cbn [fst snd].
  cbn [set_rng classification_function balance_classes
       _next_class_should_be_zero].
  rewrite Hf, Hb. cbn [bind negb]. rewrite acceptance_test. reflexivity.
Qed.

(** The rejection loop of a balanced generator is rejection sampling: it
    goes through the candidates in the order they are drawn and accepts the
    first one whose label is the wanted one, leaving the random source as it
    is after that candidate and flipping the toggle; as long as no candidate
    has the wanted label it does not return. *)
Theorem rejection_loop_accepts_first_match :
  (forall (k fuel : nat) (st : state G) (f : classifier),
     balance_classes st = true ->
     list_getitem _classification_functions (classification_function st)
     = Ret f ->
     (k < fuel)%nat ->
     (forall i, (i < k)%nat ->
        apply_classifier f (fst (nth_draw i (_rng st))) <> wanted_label st) ->
     apply_classifier f (fst (nth_draw k (_rng st))) = wanted_label st ->
     rejection_loop fuel st =
     Ret (fst (nth_draw k (_rng st)), wanted_label st,
          set_next_class_should_be_zero
            (set_rng st (snd (nth_draw k (_rng st))))
            (negb (_next_class_should_be_zero st)))) /\
  (forall (fuel : nat) (st : state G) (f : classifier),
     balance_classes st = true ->
     list_getitem _classification_functions (classification_function st)
     = Ret f ->
     (forall i, (i < fuel)%nat ->
        apply_classifier f (fst (nth_draw i (_rng st))) <> wanted_label st) ->
     rejection_loop fuel st = Diverge).
Proof.
  split.
  - induction k as [|k IH]; intros fuel st f Hb Hf Hfuel Hbefore Hk;
      (destruct fuel as [|fuel]; [lia|]);
      rewrite (rejection_loop_balanced_step fuel st f Hb Hf).
    + cbn [nth_draw] in Hk |- *. rewrite Hk, Z.eqb_refl. reflexivity.
    + pose proof (Hbefore 0%nat ltac:(lia)) as H0. cbn [nth_draw] in H0.
      destruct (Z.eqb_spec (apply_classifier f (fst (draw (_rng st))))
                  (wanted_label st)) as [E|_]; [contradiction|].
      rewrite (IH fuel (set_rng st (snd (draw (_rng st)))) f);
        try assumption; try lia.
      * reflexivity.
      * intros i Hi. apply (Hbefore (S i)). lia.
  - induction fuel as [|fuel IH]; intros st f Hb Hf Hnone; [reflexivity|].
    rewrite (rejection_loop_balanced_step fuel st f Hb Hf).
    pose proof (Hnone 0%nat ltac:(lia)) as H0. cbn [nth_draw] in H0.
    destruct (Z.eqb_spec (apply_classifier f (fst (draw (_rng st))))
                (wanted_label st)) as [E|_]; [contradiction|].
    apply (IH _ f); try assumption.
    intros i Hi. apply (Hnone (S i)). lia.
Qed.



Lemma rejection_loop_nth_draw (fuel : nat) : forall (st st' : state G) r y,
  rejection_loop fuel st = Ret (r, y, st') ->
  exists k, (k < fuel)%nat /\
            r = fst (nth_draw k (_rng st)) /\
            _rng st' = snd (nth_draw k (_rng st)).
Proof.
  induction fuel as [|fuel IH]; intros st st' r y Hrun; [discriminate|].
  cbn [rejection_loop] in Hrun.
  destruct (draw (_rng st)) as [r0 g0] eqn:Hd.
  cbn [set_rng classification_function balance_classes
       _next_class_should_be_zero] in Hrun.
  destruct (list_getitem _classification_functions (classification_function st))
    as [f| |]; cbn [bind] in Hrun; try discriminate.
  assert (Hhere : exists k, (k < S fuel)%nat /\
                    r0 = fst (nth_draw k (_rng st)) /\
                    g0 = snd (nth_draw k (_rng st))).
  { exists 0%nat. cbn [nth_draw]. rewrite Hd. repeat split. lia. }
  destruct (negb (balance_classes st)).
  { injection Hrun as <- _ <-. exact Hhere. }
  match type of Hrun with
  | (if ?c then _ else _) = _ => destruct c
  end.
  { injection Hrun as <- _ <-. exact Hhere. }
  apply IH in Hrun as (k & Hk & Hr & Hg). cbn [set_rng _rng] in Hr, Hg.
  exists (S k). cbn [nth_draw]. rewrite Hd. cbn [snd].
  repeat split; [lia | exact Hr | exact Hg].
Qed.

(** The label of a yielded pair is the active function applied to one of
    the candidates drawn from the source, the one the rejection loop stopped
    at, as drawn and before any noise; the record is that candidate, with
    the noise drawn after it when there is noise.  A drift takes effect at
    once: the next label is computed by the function at the new index, which
    is not the index used before, on a candidate drawn after the drift. *)
Theorem label_follows_active_function :
  (forall (fuel : nat) (st st' : state G) (x : features) (y : Z),
     next_sample fuel st = Ret (x, y, st') ->
     exists (f : classifier) (k : nat) (st1 : state G),
       (k < fuel)%nat /\
       list_getitem _classification_functions (classification_function st)
       = Ret f /\
       y = apply_classifier f (fst (nth_draw k (_rng st))) /\
       _rng st1 = snd (nth_draw k (_rng st)) /\
       perturbation st1 = perturbation st /\
       (x, st') = (if Qltb 0 (perturbation st)
                   then perturb st1 (fst (nth_draw k (_rng st)))
                   else (unperturbed (fst (nth_draw k (_rng st))), st1))) /\
  (forall (fuel fuel' : nat) (st st1 st2 : state G) (x : features) (y : Z),
     generate_drift fuel st = Ret st1 ->
     next_sample fuel' st1 = Ret (x, y, st2) ->
     classification_function st1 <> classification_function st /\
     exists (f : classifier) (k : nat),
       (k < fuel')%nat /\
       list_getitem _classification_functions (classification_function st1)
       = Ret f /\
       y = apply_classifier f (fst (nth_draw k (_rng st1)))).
Proof.
  assert (Hfirst : forall (fuel : nat) (st st' : state G) (x : features) (y : Z),
     next_sample fuel st = Ret (x, y, st') ->
     exists (f : classifier) (k : nat) (st1 : state G),
       (k < fuel)%nat /\
       list_getitem _classification_functions (classification_function st)
       = Ret f /\
       y = apply_classifier f (fst (nth_draw k (_rng st))) /\
       _rng st1 = snd (nth_draw k (_rng st)) /\
       perturbation st1 = perturbation st /\
       (x, st') = (if Qltb 0 (perturbation st)
                   then perturb st1 (fst (nth_draw k (_rng st)))
                   else (unperturbed (fst (nth_draw k (_rng st))), st1))).
  { intros fuel st st' x y Hrun.
    apply next_sample_ret in Hrun as (r & st1 & Hloop & _ & Hx).
    pose proof (rejection_loop_nth_draw _ _ _ _ _ Hloop)
      as (k & Hk & Hr & Hg).
    apply rejection_loop_ret in Hloop
      as (_ & (f & Hf & Hy) & _ & _ & Hp & _).
    cbn in Hf, Hp, Hr, Hg. exists f, k, st1. subst r.
    rewrite Hp in Hx. repeat split; assumption. }
  split; [exact Hfirst|].
  intros fuel fuel' st st1 st2 x y Hd Hn.
  apply generate_drift_ret in Hd as (_ & Hne & _).
  split; [exact Hne|].
  destruct (Hfirst _ _ _ _ _ Hn) as (f & k & s1 & Hk & Hf & Hy & _).
  eauto.
Qed.

End MoreGeneratorProperties.


(** ** Concrete runs for the further properties *)

(** A balanced generator on a script with a candidate aged 23 (label 1 under
    function 0), then the draw 1 for a drift, then a candidate aged 65 with a
    salary of 85000 (label 0 under function 1). *)
Definition drifted_script : list Z :=
  [500; 3; 0; 0; 0; 0; 0; 0; 1; 500; 45; 0; 0; 0; 0; 0; 0]%Z.

(** A balanced generator whose first candidate, aged 45, has label 0 under
    function 0 and is rejected, and whose second, aged 23, has label 1. *)
Definition rejecting_generator : state (list Z) :=
  mkState 0 true 0 0 false
    [500; 25; 0; 0; 0; 0; 0; 0; 500; 3; 0; 0; 0; 0; 0; 0]%Z.

Lemma classification_functions_are_binary_witness :
  (_classification_function_2 0 0 70%Z 4%Z 0%Z 0%Z 0 1%Z 0 = 0%Z \/
   _classification_function_2 0 0 70%Z 4%Z 0%Z 0%Z 0 1%Z 0 = 1%Z) /\
  (exists x y st',
     next_sample 1 noisy_generator = Ret (x, y, st') /\
     (y = 0%Z \/ y = 1%Z)).
Proof.
  split.
  - apply (proj1 (classification_functions_are_binary (G := list Z)) 2%Z).
    reflexivity.
  - eexists _, _, _. split; [vm_compute; reflexivity|].
    eapply (proj2 (classification_functions_are_binary (G := list Z))
              1%nat noisy_generator).
    vm_compute; reflexivity.
Defined.

Lemma function_2_senior_levels_witness :
  _classification_function_2 0 0 70%Z 4%Z 0%Z 0%Z 0 1%Z 0 = 1%Z.
Proof.
  rewrite function_2_senior_levels by lia. reflexivity.
Defined.

Lemma function_5_without_commission_witness :
  _classification_function_5 90000 0 30%Z 0%Z 0%Z 0%Z 0 1%Z 0
  = _classification_function_1 90000 0 30%Z 0%Z 0%Z 0%Z 0 1%Z 0 /\
  apply_classifier _classification_function_5 (fst (draw [500]%Z))
  = apply_classifier _classification_function_1 (fst (draw [500]%Z)).
Proof.
  split.
  - apply (proj1 function_5_without_commission). reflexivity.
  - apply (proj2 function_5_without_commission (list Z) Tape [500]%Z).
    vm_compute. discriminate.
Defined.

Lemma function_4_on_drawn_salaries_witness :
  _classification_function_4 60000 0 30%Z 0%Z 0%Z 0%Z 0 1%Z 200000 = 1%Z.
Proof.
  apply function_4_on_drawn_salaries; [reflexivity|].
  left. split; [lia|]. repeat split; discriminate.
Defined.

Lemma no_noise_yields_the_draw_witness :
  exists x y st' r,
    next_sample 1 (mkState 4 false 0 0 false [500; 25; 0; 0; 2; 750; 0; 0]%Z)
    = Ret (x, y, st') /\
    x = unperturbed r /\ hvalue x == 875000.
Proof.
  eexists _, _, _.
  destruct (no_noise_yields_the_draw (G := list Z) 1%nat
              (mkState 4 false 0 0 false [500; 25; 0; 0; 2; 750; 0; 0]%Z)
              _ _ _ ltac:(cbn; discriminate) eq_refl)
    as (r & _ & Hx & _).
  exists r. split; [reflexivity|]. split; [exact Hx|]. reflexivity.
Defined.

Lemma yielded_record_in_range_witness :
  exists x y st',
    next_sample 1 noisy_generator = Ret (x, y, st') /\
    (20000 <= salary x /\ salary x <= 150000) /\
    (exists k : Z, age x = inject_Z k /\ (20 <= k <= 80)%Z).
Proof.
  eexists _, _, _. split; [vm_compute; reflexivity|].
  pose proof (yielded_record_in_range (G := list Z) (H := Tape)
                1%nat noisy_generator) as Hw.
  edestruct Hw as (Hs & _ & Ha & _); [vm_compute; reflexivity|].
  split; [exact Hs | exact Ha].
Defined.

Lemma sample_idx_counts_pulls_witness :
  exists l st',
    run 1 [Pull; Drift; Pull] (mkState 0 true 0 0 false drifted_script)
    = Ret (l, st') /\
    length l = 2%nat /\ sample_idx st' = Z.of_nat (length l).
Proof.
  eexists _, _. split; [vm_compute; reflexivity|].
  split; [reflexivity|].
  refine (proj2 (sample_idx_counts_pulls (G := list Z))
            0%Z drifted_script true 0 _ 1%nat [Pull; Drift; Pull] _ _
            eq_refl _).
  vm_compute; reflexivity.
Defined.

Lemma alternation_survives_drift_witness :
  exists l st',
    run 1 [Pull; Drift; Pull] (mkState 0 true 0 0 false drifted_script)
    = Ret (l, st') /\
    classification_function st' = 1%Z /\
    map snd l = [1; 0]%Z.
Proof.
  eexists _, _. split; [vm_compute; reflexivity|].
  split; [reflexivity|].
  refine (proj1 (alternation_survives_drift (G := list Z) 1%nat
                   [Pull; Drift; Pull]
                   (mkState 0 true 0 0 false drifted_script) _ _ eq_refl _)).
  vm_compute; reflexivity.
Defined.

Lemma fresh_balanced_generator_starts_with_1_witness :
  exists l st',
    run 1 [Pull; Drift; Pull] (mkState 0 true 0 0 false drifted_script)
    = Ret (l, st') /\
    nth 0 (map snd l) 0%Z = 1%Z /\ nth 1 (map snd l) 0%Z = 0%Z.
Proof.
  eexists _, _. split; [vm_compute; reflexivity|].
  split.
  - refine (fresh_balanced_generator_starts_with_1 (G := list Z)
              0%Z drifted_script 0 _ 1%nat [Pull; Drift; Pull] _ _ 0%nat
              eq_refl _ _); [vm_compute; reflexivity | cbn; lia].
  - refine (fresh_balanced_generator_starts_with_1 (G := list Z)
              0%Z drifted_script 0 _ 1%nat [Pull; Drift; Pull] _ _ 1%nat
              eq_refl _ _); [vm_compute; reflexivity | cbn; lia].
Defined.

Lemma unbalanced_generator_never_blocks_witness :
  exists l st',
    take 1 3 (mkState 0 false 0 0 false (@nil Z)) = Ret (l, st') /\
    length l = 3%nat.
Proof.
  apply (unbalanced_generator_never_blocks (G := list Z) 0%nat 3%nat
           (mkState 0 false 0 0 false [])); [reflexivity | cbn; lia].
Defined.

Lemma rejection_loop_accepts_first_match_witness :
  (exists r st',
     rejection_loop 2 rejecting_generator = Ret (r, 1%Z, st') /\
     raw_age r = 23%Z /\ _rng st' = [] /\
     _next_class_should_be_zero st' = true) /\
  rejection_loop 1 rejecting_generator = Diverge.
Proof.
  pose proof (rejection_loop_accepts_first_match (G := list Z))
    as [Hfirst Hnone].
  split.
  - eexists _, _. split.
    + apply (Hfirst 1%nat 2%nat rejecting_generator _classification_function_0).
      * reflexivity.
      * reflexivity.
      * lia.
      * intros [|i] Hi; [vm_compute; discriminate | lia].
      * vm_compute; reflexivity.
    + repeat split.
  - apply (Hnone 1%nat rejecting_generator _classification_function_0).
    + reflexivity.
    + reflexivity.
    + intros [|i] Hi; [vm_compute; discriminate | lia].
Defined.



Lemma label_follows_active_function_witness :
  exists st1 x y st2 f k,
    generate_drift 1 (mkState 0 true 0 0 true [1; 500; 45; 0; 0; 0; 0; 0; 0]%Z)
    = Ret st1 /\
    next_sample 1 st1 = Ret (x, y, st2) /\
    classification_function st1 = 1%Z /\
    list_getitem _classification_functions 1 = Ret f /\
    y = apply_classifier f (fst (nth_draw k (_rng st1))).
Proof.
  pose proof (proj2 (label_follows_active_function (G := list Z) (H := Tape))
                1%nat 1%nat
                (mkState 0 true 0 0 true [1; 500; 45; 0; 0; 0; 0; 0; 0]%Z))
    as Hw.
  edestruct Hw as (_ & f & k & _ & Hf & Hy);
    [vm_compute; reflexivity | vm_compute; reflexivity |].
  eexists _, _, _, _, f, k.
  split; [vm_compute; reflexivity|].
  split; [vm_compute; reflexivity|].
  split; [reflexivity|]. split; [exact Hf | exact Hy].
Defined.

End Agrawal.

(** * The naive-Bayes posterior *)


Module NaiveBayes.

Local Open Scope R_scope.

(* Linear arithmetic over the reals in this module. *)
Local Ltac lra := Lra.lra.

(** ** Python dictionaries

    A dictionary keeps its items in insertion order and holds each key once.
    Keys (class indices, attribute indices) are integers here. *)

Definition dict (V : Type) : Type := list (Z * V).

Definition keys {V : Type} (d : dict V) : list Z := map fst d.
Definition values {V : Type} (d : dict V) : list V := map snd d.

Definition is_dict {V : Type} (d : dict V) : Prop := NoDup (keys d).

Fixpoint dict_get {V : Type} (d : dict V) (k : Z) : option V :=
  match d with
  | [] => None
  | (k', v) :: d' => if (k =? k')%Z then Some v else dict_get d' k
  end.

(** [d[k] = v]: replaces the value of an existing key in place, appends a new
    key at the end. *)
Fixpoint dict_set {V : Type} (d : dict V) (k : Z) (v : V) : dict V :=
  match d with
  | [] => [(k, v)]
  | (k', v') :: d' =>
      if (k =? k')%Z then (k, v) :: d' else (k', v') :: dict_set d' k v
  end.

(** ** Arithmetic of the source *)

Definition Rltb (x y : R) : bool := if Rlt_dec x y then true else false.
Definition Reqb (x y : R) : bool := if Req_dec_T x y then true else false.

(** [sum(iterable)]: from 0, left to right. *)
Definition py_sum (l : list R) : R := fold_left Rplus l 0.

(** [max(iterable)]: raises [ValueError] on an empty one. *)
Definition py_max (l : list R) : outcome R :=
  match l with
  | [] => Raise ValueError
  | v :: vs => Ret (fold_left Rmax vs v)
  end.

(** [math.log(x)]: raises [ValueError] unless [x > 0]. *)
Definition math_log (x : R) : outcome R :=
  if Rltb 0 x then Ret (ln x) else Raise ValueError.

Section Estimator.

(** Feature values are opaque to the estimator: it only hands them to the
    observers. *)
Variable Val : Type.

(** An attribute observer, through its one method used here,
    [probability_of_attribute_value_given_class(value, class_index)]. *)
Definition observer : Type := Val -> Z -> R.

(** A query made to an observer: the attribute and the class asked about. *)
Definition query : Type := (Z * Z)%type.

(** Lines 43-52, for one class: the loop over the observers (the guard
    [if attribute_observers] skips a loop that would not run anyway).
    [score] is [votes[class_index]], the only entry the loop touches;
    [math.log(tmp)] is guarded by [tmp > 0], so it cannot raise.  The loop
    visits the keys in order and reads back the value of each, which is the
    item's own; the queries made are logged in order. *)
Fixpoint likelihoods (x : dict Val) (attribute_observers : dict observer)
    (class_index : Z) (score : R) (log : list query) : R * list query :=
  match attribute_observers with
  | [] => (score, log)
  | (att_idx, obs) :: rest =>
      match dict_get x att_idx with
      | None => likelihoods x rest class_index score log
      | Some v =>
          let tmp := obs v class_index in
          likelihoods x rest class_index
            (score + (if Rltb 0 tmp then ln tmp else 0))
            (log ++ [(att_idx, class_index)])
      end
  end.

(** Lines 35-52: the loop over the classes, filling [votes]. *)
Fixpoint class_loop (x : dict Val) (attribute_observers : dict observer)
    (total_weight : R) (items : dict R) (votes : dict R) (log : list query)
    : outcome (dict R * list query) :=
  match items with
  | [] => Ret (votes, log)
  | (class_index, class_weight) :: rest =>
      if Rltb 0 class_weight then
        do prior <- math_log (class_weight / total_weight);
        let (score, log) :=
          likelihoods x attribute_observers class_index prior log in
        class_loop x attribute_observers total_weight rest
          (dict_set votes class_index score) log
      else
        class_loop x attribute_observers total_weight rest
          (dict_set votes class_index 0) log
  end.

(** Lines 29 and 34-52: the log-domain scores and the queries made to obtain
    them. *)
Definition log_votes (x : dict Val) (observed_class_distribution : dict R)
    (attribute_observers : dict observer) : outcome (dict R * list query) :=
  let total_weight := py_sum (values observed_class_distribution) in
  class_loop x attribute_observers total_weight observed_class_distribution
    [] [].

(** Lines 54-62: the log-sum-exp normalisation.  The last loop rewrites the
    value of every key of [votes] in place. *)
Definition normalise (votes : dict R) : outcome (dict R) :=
  do max_ll <- py_max (values votes);
  do l <- math_log
            (py_sum (map (fun log_proba => exp (log_proba - max_ll))
                         (values votes)));
  let lse := max_ll + l in
  Ret (map (fun kv => (fst kv, exp (snd kv - lse))) votes).

(** [do_naive_bayes_prediction]; [None] is Python's [None]. *)
Definition do_naive_bayes_prediction (x : dict Val)
    (observed_class_distribution : dict R)
    (attribute_observers : dict observer) : outcome (option (dict R)) :=
  let total_weight := py_sum (values observed_class_distribution) in
  match observed_class_distribution with
  | [] => Ret None
  | _ :: _ =>
      if Reqb total_weight 0 then Ret None
      else
        do vl <- log_votes x observed_class_distribution attribute_observers;
        do votes <- normalise (fst vl);
        Ret (Some votes)
  end.

(** ** What the loops compute *)

Definition Rsum (l : list R) : R := fold_right Rplus 0 l.

(** The terms one class accumulates, one for each observer whose attribute
    occurs in [x]: [ln p] when [p > 0], and 0 otherwise. *)
Fixpoint evidence (x : dict Val) (attribute_observers : dict observer)
    (class_index : Z) : list R :=
  match attribute_observers with
  | [] => []
  | (att_idx, obs) :: rest =>
      match dict_get x att_idx with
      | None => evidence x rest class_index
      | Some v =>
          (if Rltb 0 (obs v class_index) then ln (obs v class_index) else 0)
          :: evidence x rest class_index
      end
  end.

(** The queries made for one class with a positive weight. *)
Fixpoint asked (x : dict Val) (attribute_observers : dict observer)
    (class_index : Z) : list query :=
  match attribute_observers with
  | [] => []
  | (att_idx, obs) :: rest =>
      match dict_get x att_idx with
      | None => asked x rest class_index
      | Some v => (att_idx, class_index) :: asked x rest class_index
      end
  end.

Definition score (x : dict Val) (attribute_observers : dict observer)
    (total_weight : R) (cw : Z * R) : Z * R :=
  (fst cw,
   if Rltb 0 (snd cw)
   then ln (snd cw / total_weight) + Rsum (evidence x attribute_observers (fst cw))
   else 0).

Definition class_queries (x : dict Val) (attribute_observers : dict observer)
    (cw : Z * R) : list query :=
  if Rltb 0 (snd cw) then asked x attribute_observers (fst cw) else [].

(** The normalised exponentials of the scores. *)
Definition softmax (votes : dict R) : dict R :=
  map (fun kv => (fst kv, exp (snd kv) / Rsum (map exp (values votes)))) votes.

End Estimator.

Arguments evidence {Val} x attribute_observers class_index.
Arguments asked {Val} x attribute_observers class_index.
Arguments likelihoods {Val} x attribute_observers class_index score log.
Arguments class_loop {Val} x attribute_observers total_weight items votes log.
Arguments log_votes {Val} x observed_class_distribution attribute_observers.
Arguments do_naive_bayes_prediction {Val} x observed_class_distribution
  attribute_observers.
Arguments score {Val} x attribute_observers total_weight cw.
Arguments class_queries {Val} x attribute_observers cw.

(** ** Properties of the estimator *)

Lemma Rltb_true (x y : R) : x < y -> Rltb x y = true.
Proof. intros Hlt. unfold Rltb. destruct (Rlt_dec x y); [reflexivity|contradiction]. Qed.

Lemma Rltb_false (x y : R) : y <= x -> Rltb x y = false.
Proof. intros Hle. unfold Rltb. destruct (Rlt_dec x y); [lra|reflexivity]. Qed.

Lemma Rltb_spec (x y : R) : Rltb x y = true <-> x < y.
Proof.
  unfold Rltb. destruct (Rlt_dec x y); split; auto; discriminate.
Qed.

Lemma Reqb_spec (x y : R) : Reqb x y = true <-> x = y.
Proof.
  unfold Reqb. destruct (Req_dec_T x y); split; auto; discriminate.
Qed.

Lemma fold_left_Rplus (l : list R) : forall a, fold_left Rplus l a = a + Rsum l.
Proof.
  induction l as [|v l IH]; intros a; cbn [fold_left Rsum fold_right].
  - lra.
  - rewrite IH. unfold Rsum. lra.
Qed.

Lemma py_sum_Rsum (l : list R) : py_sum l = Rsum l.
Proof. unfold py_sum. rewrite fold_left_Rplus. lra. Qed.

Lemma Rsum_app (l1 l2 : list R) : Rsum (l1 ++ l2) = Rsum l1 + Rsum l2.
Proof.
  induction l1 as [|v l1 IH]; cbn [app Rsum fold_right].
  - unfold Rsum; cbn; lra.
  - unfold Rsum in *. rewrite IH. lra.
Qed.

Lemma Rsum_nonneg (l : list R) : Forall (fun w => 0 <= w) l -> 0 <= Rsum l.
Proof.
  induction 1 as [|w l Hw _ IH]; unfold Rsum in *; cbn [fold_right]; lra.
Qed.

Lemma dict_set_fresh {V : Type} (d : dict V) (k : Z) (v : V) :
  ~ In k (keys d) -> dict_set d k v = d ++ [(k, v)].
Proof.
  induction d as [|[k' v'] d IH]; intros Hk; cbn [dict_set app].
  - reflexivity.
  - cbn [keys map fst In] in Hk.
    destruct (Z.eqb_spec k k') as [->|_]; [tauto|].
    rewrite IH; [reflexivity|]. unfold keys. tauto.
Qed.

Lemma dict_get_in {V : Type} (d : dict V) (k : Z) (v : V) :
  is_dict d -> In (k, v) d -> dict_get d k = Some v.
Proof.
  unfold is_dict.
  induction d as [|[k' v'] d IH]; intros Hnd Hin; [contradiction|].
  cbn [keys map fst] in Hnd. inversion Hnd as [|? ? Hfresh Hnd']; subst.
  cbn [dict_get]. destruct Hin as [[= -> ->]|Hin].
  - now rewrite Z.eqb_refl.
  - destruct (Z.eqb_spec k k') as [->|_]; [|now apply IH].
    exfalso. apply Hfresh. change k' with (fst (k', v)). now apply in_map.
Qed.

Lemma is_dict_functional {V : Type} (d : dict V) (k : Z) (v w : V) :
  is_dict d -> In (k, v) d -> In (k, w) d -> v = w.
Proof.
  intros Hd Hv Hw.
  pose proof (dict_get_in d k v Hd Hv) as E1.
  pose proof (dict_get_in d k w Hd Hw) as E2. congruence.
Qed.

Section EstimatorProperties.

Variable Val : Type.
Implicit Types (x : dict Val) (observers : dict (observer Val)).

Lemma likelihoods_spec x observers c : forall s log,
  likelihoods x observers c s log =
  (s + Rsum (evidence x observers c), log ++ asked x observers c).
Proof.
  induction observers as [|[a o] rest IH]; intros s log;
    cbn [likelihoods evidence asked].
  - unfold Rsum; cbn [fold_right]. rewrite app_nil_r. f_equal. lra.
  - destruct (dict_get x a) as [v|]; [|apply IH].
    rewrite IH, <- app_assoc. cbn [app]. f_equal.
    unfold Rsum; cbn [fold_right]. lra.
Qed.

Lemma class_loop_ret x observers total : forall items votes log votes' log',
  NoDup (keys votes ++ keys items) ->
  class_loop x observers total items votes log = Ret (votes', log') ->
  votes' = votes ++ map (score x observers total) items /\
  log' = log ++ flat_map (class_queries x observers) items.
Proof.
  induction items as [|[c w] rest IH]; intros votes log votes' log' Hnd Hrun;
    cbn [class_loop] in Hrun.
  - injection Hrun as <- <-. cbn. now rewrite !app_nil_r.
  - assert (Hfresh : ~ In c (keys votes)).
    { cbn [keys map fst] in Hnd. apply NoDup_remove_2 in Hnd.
      intros Hin. apply Hnd. apply in_or_app. now left. }
    assert (Hnd' : forall v, NoDup (keys (dict_set votes c v) ++ keys rest)).
    { intros v. rewrite dict_set_fresh by exact Hfresh.
      unfold keys in *. rewrite map_app, <- app_assoc. exact Hnd. }
    cbn [map flat_map]. unfold score at 1, class_queries at 1. cbn [fst snd].
    destruct (Rltb 0 w).
    + destruct (math_log (w / total)) as [prior| |] eqn:Hlog;
        cbn [bind] in Hrun; try discriminate.
      assert (Hprior : prior = ln (w / total)).
      { unfold math_log in Hlog. destruct (Rltb 0 (w / total)); congruence. }
      rewrite likelihoods_spec in Hrun.
      apply IH in Hrun as [-> ->]; [|apply Hnd'].
      rewrite dict_set_fresh by exact Hfresh. subst prior.
      rewrite <- !app_assoc. split; reflexivity.
    + apply IH in Hrun as [-> ->]; [|apply Hnd'].
      rewrite dict_set_fresh by exact Hfresh.
      rewrite <- !app_assoc. split; reflexivity.
Qed.

Lemma log_votes_ret x ocd observers votes log :
  is_dict ocd ->
  log_votes x ocd observers = Ret (votes, log) ->
  votes = map (score x observers (py_sum (values ocd))) ocd /\
  log = flat_map (class_queries x observers) ocd.
Proof.
  intros Hd Hrun. unfold log_votes in Hrun.
  apply class_loop_ret in Hrun; [exact Hrun|exact Hd].
Qed.

(** *** The normalisation *)

Lemma Rsum_map_exp_pos (l : list R) : l <> [] -> 0 < Rsum (map exp l).
Proof.
  assert (Hnn : forall l', 0 <= Rsum (map exp l')).
  { induction l' as [|v l' IH]; unfold Rsum in *; cbn [map fold_right];
      [lra|]. pose proof (exp_pos v). lra. }
  destruct l as [|v l]; [congruence|]. intros _.
  unfold Rsum; cbn [map fold_right].
  pose proof (exp_pos v). pose proof (Hnn l) as Hl. unfold Rsum in Hl. lra.
Qed.

Lemma exp_le_Rsum (l : list R) (v : R) :
  In v l -> exp v <= Rsum (map exp l).
Proof.
  induction l as [|w l IH]; [contradiction|].
  unfold Rsum in *; cbn [map fold_right]. intros [->|Hin].
  - assert (0 <= fold_right Rplus 0 (map exp l)).
    { clear. induction l as [|u l IH]; cbn [map fold_right]; [lra|].
      pose proof (exp_pos u). lra. }
    lra.
  - specialize (IH Hin). pose proof (exp_pos w). lra.
Qed.

Lemma Rsum_map_exp_shift (m : R) (l : list R) :
  Rsum (map (fun v => exp (v - m)) l) = Rsum (map exp l) / exp m.
Proof.
  induction l as [|v l IH]; unfold Rsum in *; cbn [map fold_right].
  - unfold Rdiv. lra.
  - rewrite IH. unfold Rminus. rewrite exp_plus, exp_Ropp.
    unfold Rdiv. lra.
Qed.

Lemma Rsum_map_scale (k : R) (l : list R) :
  Rsum (map (fun v => v / k) l) = Rsum l / k.
Proof.
  induction l as [|v l IH]; unfold Rsum in *; cbn [map fold_right].
  - unfold Rdiv. lra.
  - rewrite IH. unfold Rdiv. lra.
Qed.

(** Whatever the maximum taken out, log-sum-exp normalisation is the
    soft-max of the scores. *)
Lemma normalise_softmax (votes : dict R) :
  votes <> [] -> normalise votes = Ret (softmax votes).
Proof.
  intros Hne. unfold normalise, softmax.
  destruct votes as [|[c0 v0] rest] eqn:Ev; [congruence|].
  rewrite <- Ev in *. 
  assert (Hvals : values votes <> []) by (subst votes; discriminate).
  replace (py_max (values votes))
    with (Ret (A := R) (fold_left Rmax (values rest) v0))
    by (subst votes; reflexivity).
  cbn [bind]. set (m := fold_left Rmax (values rest) v0).
  rewrite py_sum_Rsum, Rsum_map_exp_shift.
  pose proof (Rsum_map_exp_pos (values votes) Hvals) as Hpos.
  pose proof (exp_pos m) as Hm.
  set (S := Rsum (map exp (values votes))) in *.
  assert (Hq : 0 < S / exp m) by (apply Rdiv_lt_0_compat; assumption).
  unfold math_log. rewrite (Rltb_true _ _ Hq). cbn [bind].
  apply f_equal. apply map_ext. intros [c v]. cbn [fst snd]. apply f_equal.
  replace (v - (m + ln (S / exp m))) with (v + (- m + - ln (S / exp m))) by lra.
  rewrite !exp_plus, !exp_Ropp, exp_ln by exact Hq.
  field. split; lra.
Qed.

Lemma keys_map_snd {V W : Type} (f : Z * V -> W) (d : dict V) :
  keys (map (fun kv => (fst kv, f kv)) d) = keys d.
Proof.
  unfold keys. rewrite map_map. apply map_ext. reflexivity.
Qed.

Lemma softmax_keys (votes : dict R) : keys (softmax votes) = keys votes.
Proof. apply (keys_map_snd (fun kv => exp (snd kv) / _)). Qed.

Lemma softmax_values (votes : dict R) :
  values (softmax votes) =
  map (fun v => v / Rsum (map exp (values votes))) (map exp (values votes)).
Proof.
  unfold softmax, values. rewrite !map_map. apply map_ext. reflexivity.
Qed.

Lemma softmax_sums_to_1 (votes : dict R) :
  votes <> [] -> Rsum (values (softmax votes)) = 1.
Proof.
  intros Hne. rewrite softmax_values, Rsum_map_scale.
  assert (Hpos : 0 < Rsum (map exp (values votes))).
  { apply Rsum_map_exp_pos. destruct votes; [congruence|discriminate]. }
  field. lra.
Qed.

Lemma softmax_in_unit_interval (votes : dict R) :
  Forall (fun p => 0 <= p <= 1) (values (softmax votes)).
Proof.
  rewrite softmax_values. apply Forall_forall. intros p Hp.
  apply in_map_iff in Hp as (e & <- & He).
  apply in_map_iff in He as (v & <- & Hv).
  pose proof (exp_le_Rsum _ _ Hv) as Hle. pose proof (exp_pos v) as Hv0.
  set (S := Rsum (map exp (values votes))) in *.
  assert (HS : 0 < S) by lra.
  split.
  - apply Rlt_le. apply Rdiv_lt_0_compat; assumption.
  - apply (Rmult_le_reg_r S); [exact HS|].
    unfold Rdiv. rewrite Rmult_assoc, Rinv_l by lra. lra.
Qed.

(** The estimator, once past the guard of line 30. *)
Lemma do_naive_bayes_prediction_past_guard x ocd observers :
  ocd <> [] -> py_sum (values ocd) <> 0 ->
  do_naive_bayes_prediction x ocd observers =
  (do vl <- log_votes x ocd observers;
   do votes <- normalise (fst vl);
   Ret (Some votes)).
Proof.
  intros Hne Hsum. unfold do_naive_bayes_prediction.
  destruct ocd as [|cw rest]; [congruence|].
  destruct (Reqb (py_sum (values (cw :: rest))) 0) eqn:E; [|reflexivity].
  apply Reqb_spec in E. contradiction.
Qed.

Lemma do_naive_bayes_prediction_some x ocd observers post :
  is_dict ocd ->
  do_naive_bayes_prediction x ocd observers = Ret (Some post) ->
  ocd <> [] /\ py_sum (values ocd) <> 0 /\
  post = softmax (map (score x observers (py_sum (values ocd))) ocd).
Proof.
  intros Hd Hrun. unfold do_naive_bayes_prediction in Hrun.
  destruct ocd as [|cw rest] eqn:Eo; [discriminate|]. rewrite <- Eo in *.
  assert (Hne : ocd <> []) by (subst ocd; discriminate).
  destruct (Reqb (py_sum (values ocd)) 0) eqn:E; [discriminate|].
  assert (Hsum : py_sum (values ocd) <> 0).
  { intros Hz. apply Reqb_spec in Hz. congruence. }
  destruct (log_votes x ocd observers) as [[votes log]| |] eqn:Hl;
    cbn [bind fst] in Hrun; try discriminate.
  apply log_votes_ret in Hl as [-> _]; [|exact Hd].
  rewrite normalise_softmax in Hrun.
  - cbn [bind] in Hrun. injection Hrun as <-. auto.
  - subst ocd. discriminate.
Qed.

(** With non-negative weights that do not sum to 0 the total is positive,
    no [math.log] raises, and the estimator returns the soft-max of the
    scores. *)
Lemma class_loop_total x observers total : forall items votes log,
  0 < total ->
  NoDup (keys votes ++ keys items) ->
  class_loop x observers total items votes log =
  Ret (votes ++ map (score x observers total) items,
       log ++ flat_map (class_queries x observers) items).
Proof.
  intros items votes log Htot.
  revert votes log.
  induction items as [|[c w] rest IH]; intros votes log Hnd;
    cbn [class_loop map flat_map].
  - now rewrite !app_nil_r.
  - assert (Hfresh : ~ In c (keys votes)).
    { cbn [keys map fst] in Hnd. apply NoDup_remove_2 in Hnd.
      intros Hin. apply Hnd. apply in_or_app. now left. }
    assert (Hnd' : forall v, NoDup (keys (dict_set votes c v) ++ keys rest)).
    { intros v. rewrite dict_set_fresh by exact Hfresh.
      unfold keys in *. rewrite map_app, <- app_assoc. exact Hnd. }
    unfold score at 1, class_queries at 1. cbn [fst snd].
    destruct (Rltb 0 w) eqn:Ew.
    + apply Rltb_spec in Ew.
      assert (Hq : 0 < w / total) by (apply Rdiv_lt_0_compat; assumption).
      unfold math_log. rewrite (Rltb_true _ _ Hq). cbn [bind].
      rewrite likelihoods_spec, IH by apply Hnd'.
      rewrite dict_set_fresh by exact Hfresh.
      now rewrite <- !app_assoc.
    + rewrite IH by apply Hnd'.
      rewrite dict_set_fresh by exact Hfresh.
      now rewrite <- !app_assoc.
Qed.

Lemma do_naive_bayes_prediction_total x ocd observers :
  is_dict ocd -> 0 < py_sum (values ocd) ->
  log_votes x ocd observers =
  Ret (map (score x observers (py_sum (values ocd))) ocd,
       flat_map (class_queries x observers) ocd) /\
  do_naive_bayes_prediction x ocd observers =
  Ret (Some (softmax (map (score x observers (py_sum (values ocd))) ocd))).
Proof.
  intros Hd Hpos.
  assert (Hl : log_votes x ocd observers =
               Ret (map (score x observers (py_sum (values ocd))) ocd,
                    flat_map (class_queries x observers) ocd)).
  { unfold log_votes. now rewrite class_loop_total. }
  split; [exact Hl|].
  assert (Hne : ocd <> []).
  { intros ->. unfold py_sum in Hpos. cbn in Hpos. lra. }
  rewrite do_naive_bayes_prediction_past_guard by (auto; lra).
  rewrite Hl. cbn [bind fst]. rewrite normalise_softmax; [reflexivity|].
  destruct ocd; [congruence|discriminate].
Qed.

Lemma asked_class x observers c a c' :
  In (a, c') (asked x observers c) -> c' = c.
Proof.
  induction observers as [|[a0 o] rest IH]; cbn [asked]; [contradiction|].
  destruct (dict_get x a0); [|exact IH].
  intros [[= _ <-]|Hin]; [reflexivity|auto].
Qed.

Lemma score_keys x observers total (ocd : dict R) :
  keys (map (score x observers total) ocd) = keys ocd.
Proof. unfold keys. rewrite map_map. apply map_ext. reflexivity. Qed.

(** C3. The class loop returns its scores when the total weight is positive
    (it raises only through [math.log] of a non-positive ratio).  In the
    scores it leaves in [votes]: a class of weight 0
    has the score 0 and no observer is asked about it; a class of positive
    weight has [ln (w / total_weight)] plus, for each observer whose
    attribute occurs in [x], [ln p] when the likelihood [p] is positive and
    0 otherwise, and the observers are asked about exactly those attributes.
    Every class has an entry, and the normalisation runs over all of them:
    a class of weight 0 ends with [exp 0] over the sum of the exponentials
    of all scores. *)
Theorem zero_weight_scores_are_zero x ocd observers :
  is_dict ocd ->
  (0 < py_sum (values ocd) ->
   exists votes log, log_votes x ocd observers = Ret (votes, log)) /\
  forall votes log,
  log_votes x ocd observers = Ret (votes, log) ->
  keys votes = keys ocd /\
  (forall c, In (c, 0) ocd ->
     dict_get votes c = Some 0 /\ forall a, ~ In (a, c) log) /\
  (forall c w, In (c, w) ocd -> 0 < w ->
     dict_get votes c
     = Some (ln (w / py_sum (values ocd)) + Rsum (evidence x observers c)) /\
     forall a, In (a, c) log <-> In (a, c) (asked x observers c)) /\
  (ocd <> [] -> py_sum (values ocd) <> 0 ->
     do_naive_bayes_prediction x ocd observers = Ret (Some (softmax votes)) /\
     forall c, In (c, 0) ocd ->
       dict_get (softmax votes) c
       = Some (exp 0 / Rsum (map exp (values votes)))).
Proof.
  intros Hd. split.
  { intros Hpos.
    destruct (do_naive_bayes_prediction_total x ocd observers Hd Hpos)
      as [Hl _].
    eauto. }
  intros votes log Hrun.
  pose proof Hrun as Hrun0.
  apply log_votes_ret in Hrun as [Hv Hl]; [|exact Hd].
  set (total := py_sum (values ocd)) in *.
  assert (Hk : keys votes = keys ocd) by (subst votes; apply score_keys).
  assert (Hdv : is_dict votes) by (unfold is_dict; rewrite Hk; exact Hd).
  assert (Hin : forall c w, In (c, w) ocd ->
                In (score x observers total (c, w)) votes).
  { intros c w Hcw. subst votes. now apply in_map. }
  assert (Hlog : forall a c, In (a, c) log ->
                 exists w, In (c, w) ocd /\ 0 < w /\
                           In (a, c) (asked x observers c)).
  { intros a c Ha. subst log. apply in_flat_map in Ha as ([c' w'] & Hcw & Ha).
    unfold class_queries in Ha. cbn [fst snd] in Ha.
    destruct (Rltb 0 w') eqn:Ew; [|contradiction].
    apply Rltb_spec in Ew. pose proof (asked_class _ _ _ _ _ Ha) as ->.
    exists w'. auto. }
  split; [exact Hk|]. split; [|split].
  - intros c Hc. split.
    + apply dict_get_in; [exact Hdv|].
      specialize (Hin c 0 Hc). unfold score in Hin. cbn [fst snd] in Hin.
      rewrite Rltb_false in Hin by lra. exact Hin.
    + intros a Ha. apply Hlog in Ha as (w & Hw & Hpos & _).
      pose proof (is_dict_functional ocd c 0 w Hd Hc Hw). lra.
  - intros c w Hc Hw. split.
    + apply dict_get_in; [exact Hdv|].
      specialize (Hin c w Hc). unfold score in Hin. cbn [fst snd] in Hin.
      rewrite Rltb_true in Hin by exact Hw. exact Hin.
    + intros a. split.
      * intros Ha. apply Hlog in Ha as (_ & _ & _ & Ha). exact Ha.
      * intros Ha. subst log. apply in_flat_map. exists (c, w).
        split; [exact Hc|]. unfold class_queries. cbn [fst snd].
        now rewrite Rltb_true.
  - intros Hne Hsum. split.
    + rewrite do_naive_bayes_prediction_past_guard by assumption.
      rewrite Hrun0. cbn [bind fst]. rewrite normalise_softmax; [reflexivity|].
      intros ->. destruct ocd; [congruence|discriminate].
    + intros c Hc. apply dict_get_in.
      * unfold is_dict. rewrite softmax_keys. exact Hdv.
      * specialize (Hin c 0 Hc). unfold score in Hin. cbn [fst snd] in Hin.
        rewrite Rltb_false in Hin by lra.
        unfold softmax.
        change (c, exp 0 / Rsum (map exp (values votes)))
          with ((fun kv : Z * R =>
                   (fst kv, exp (snd kv) / Rsum (map exp (values votes))))
                  (c, 0)).
        now apply in_map.
Qed.

(** C4. A returned distribution has the keys of the prior, in the same
    order; its values lie in [0, 1] and sum to 1.  It is returned only for a
    non-empty prior whose weights do not sum to 0, and it is returned for
    every prior of non-negative weights that do not sum to 0. *)
Theorem posterior_is_a_distribution x ocd observers :
  is_dict ocd ->
  (Forall (fun w => 0 <= w) (values ocd) -> py_sum (values ocd) <> 0 ->
   exists post, do_naive_bayes_prediction x ocd observers = Ret (Some post)) /\
  forall post,
  do_naive_bayes_prediction x ocd observers = Ret (Some post) ->
  (ocd <> [] /\ py_sum (values ocd) <> 0) /\
  keys post = keys ocd /\
  Forall (fun p => 0 <= p <= 1) (values post) /\
  py_sum (values post) = 1.
Proof.
  intros Hd. split.
  { intros Hnn Hsum.
    assert (Hpos : 0 < py_sum (values ocd)).
    { pose proof (Rsum_nonneg _ Hnn) as H0. rewrite py_sum_Rsum in *. lra. }
    destruct (do_naive_bayes_prediction_total x ocd observers Hd Hpos)
      as [_ Hp].
    eauto. }
  intros post Hrun.
  apply do_naive_bayes_prediction_some in Hrun as (Hne & Hsum & ->);
    [|exact Hd].
  split; [split; assumption|]. split; [|split].
  - rewrite softmax_keys. apply score_keys.
  - apply softmax_in_unit_interval.
  - rewrite py_sum_Rsum. apply softmax_sums_to_1.
    destruct ocd; [congruence|discriminate].
Qed.

(** C5. The estimator returns [None] exactly when the prior is empty or its
    weights sum to 0; the prior [{0: 0}] is such a case. *)
Theorem none_iff_empty_or_zero_total x ocd observers :
  (do_naive_bayes_prediction x ocd observers = Ret None <->
   ocd = [] \/ py_sum (values ocd) = 0) /\
  do_naive_bayes_prediction x [(0%Z, 0)] [] = Ret None.
Proof.
  split.
  - split.
    + intros Hrun. destruct ocd as [|cw rest]; [now left|right].
      unfold do_naive_bayes_prediction in Hrun.
      destruct (Reqb (py_sum (values (cw :: rest))) 0) eqn:E.
      * now apply Reqb_spec.
      * exfalso.
        destruct (log_votes x (cw :: rest) observers) as [[votes log]| |];
          cbn [bind fst] in Hrun; try discriminate.
        destruct (normalise votes); cbn [bind] in Hrun; discriminate.
    + intros [->|Hz]; [reflexivity|].
      unfold do_naive_bayes_prediction. destruct ocd; [reflexivity|].
      apply Reqb_spec in Hz. now rewrite Hz.
  - unfold do_naive_bayes_prediction.
    assert (E : Reqb (py_sum (values [(0%Z, 0)])) 0 = true).
    { apply Reqb_spec. unfold py_sum. cbn. lra. }
    now rewrite E.
Qed.

(** C9. With the prior [{0: 3, 1: 1}] and no observers the posterior is
    [{0: 3/4, 1: 1/4}], whatever the record [x]. *)
Theorem prior_three_one_without_observers x :
  do_naive_bayes_prediction x [(0%Z, 3); (1%Z, 1)] []
  = Ret (Some [(0%Z, 3 / 4); (1%Z, 1 / 4)]).
Proof.
  assert (Hsum : py_sum (values [(0%Z, 3); (1%Z, 1)]) = 4).
  { unfold py_sum. cbn. lra. }
  assert (Hd : is_dict [(0%Z, 3); (1%Z, 1)]).
  { unfold is_dict. cbn. repeat constructor; cbn; intuition lia. }
  destruct (do_naive_bayes_prediction_total x _ [] Hd) as [_ ->];
    [rewrite Hsum; lra|].
  rewrite Hsum. unfold softmax, score, values, Rsum.
  cbn [map fst snd evidence fold_right].
  rewrite !Rltb_true by lra.
  rewrite !Rplus_0_r, !exp_ln by lra.
  replace (3 / 4 / (3 / 4 + 1 / 4)) with (3 / 4) by field.
  replace (1 / 4 / (3 / 4 + 1 / 4)) with (1 / 4) by field.
  reflexivity.
Qed.


(** *** Further properties of the estimator *)

(** The product of the likelihoods the observers report for a class, over
    the attributes that occur in [x]. *)
Fixpoint likelihood (x : dict Val) (observers : dict (observer Val))
    (class_index : Z) : R :=
  match observers with
  | [] => 1
  | (att_idx, obs) :: rest =>
      match dict_get x att_idx with
      | None => likelihood x rest class_index
      | Some v => obs v class_index * likelihood x rest class_index
      end
  end.

(** Every likelihood reported for a class is positive. *)
Fixpoint likelihoods_positive (x : dict Val) (observers : dict (observer Val))
    (class_index : Z) : Prop :=
  match observers with
  | [] => True
  | (att_idx, obs) :: rest =>
      match dict_get x att_idx with
      | None => likelihoods_positive x rest class_index
      | Some v =>
          0 < obs v class_index /\ likelihoods_positive x rest class_index
      end
  end.

Lemma exp_evidence x observers c :
  likelihoods_positive x observers c ->
  exp (Rsum (evidence x observers c)) = likelihood x observers c /\
  0 < likelihood x observers c.
Proof.
  induction observers as [|[a o] rest IH];
    cbn [likelihoods_positive evidence likelihood].
  - intros _. unfold Rsum; cbn [fold_right]. rewrite exp_0. split; lra.
  - destruct (dict_get x a) as [v|]; [|exact IH].
    intros [Hp Hrest]. destruct (IH Hrest) as [IH1 IH2].
    unfold Rsum in *; cbn [fold_right].
    rewrite (Rltb_true _ _ Hp), exp_plus, exp_ln, IH1 by exact Hp.
    split; [reflexivity|]. apply Rmult_lt_0_compat; assumption.
Qed.

Lemma py_sum_positive (ocd : dict R) :
  ocd <> [] -> Forall (fun cw => 0 < snd cw) ocd -> 0 < py_sum (values ocd).
Proof.
  intros Hne Hpos. rewrite py_sum_Rsum.
  destruct ocd as [|[c w] rest]; [congruence|].
  inversion Hpos as [|? ? Hw Hrest]; subst. cbn [snd] in Hw.
  unfold values, Rsum; cbn [map snd fold_right].
  assert (H0 : 0 <= Rsum (values rest)).
  { apply Rsum_nonneg. unfold values. rewrite Forall_map.
    eapply Forall_impl; [|exact Hrest]. cbn. intros; lra. }
  unfold Rsum, values in H0. lra.
Qed.

Lemma Rsum_map_ext_in {A : Type} (f g : A -> R) (l : list A) :
  (forall a, In a l -> f a = g a) -> Rsum (map f l) = Rsum (map g l).
Proof.
  intros Hfg. f_equal. apply map_ext_in. exact Hfg.
Qed.

Lemma softmax_of_weights {A : Type} (key : A -> Z) (sc wt : A -> R)
    (total : R) (l : list A) :
  0 < total ->
  (forall a, In a l -> exp (sc a) = wt a / total) ->
  l <> [] ->
  softmax (map (fun a => (key a, sc a)) l)
  = map (fun a => (key a, wt a / Rsum (map wt l))) l.
Proof.
  intros Ht Hsc Hne. unfold softmax. rewrite map_map. cbn [fst snd].
  assert (Hsum : Rsum (map exp (values (map (fun a => (key a, sc a)) l)))
                 = Rsum (map wt l) / total).
  { unfold values. rewrite !map_map. cbn [snd].
    rewrite (Rsum_map_ext_in _ (fun a => wt a / total) l Hsc).
    rewrite <- (Rsum_map_scale total (map wt l)), map_map. reflexivity. }
  rewrite Hsum.
  assert (Hpos : 0 < Rsum (map wt l) / total).
  { rewrite <- Hsum. apply Rsum_map_exp_pos.
    destruct l; [congruence|discriminate]. }
  assert (Hw : 0 < Rsum (map wt l)).
  { apply (Rmult_lt_reg_r (/ total)); [now apply Rinv_0_lt_compat|].
    rewrite Rmult_0_l. exact Hpos. }
  apply map_ext_in. intros a Ha. f_equal. rewrite (Hsc a Ha). field. lra.
Qed.


(** Bayes' rule: when every class has a positive weight and every
    likelihood reported is positive, the posterior of a class is its weight
    times the product of its likelihoods, divided by the sum of these
    products over all classes. *)
Theorem posterior_is_bayes_rule x ocd observers :
  is_dict ocd -> ocd <> [] ->
  Forall (fun cw => 0 < snd cw) ocd ->
  (forall c w, In (c, w) ocd -> likelihoods_positive x observers c) ->
  do_naive_bayes_prediction x ocd observers =
  Ret (Some
    (map (fun cw =>
            (fst cw,
             snd cw * likelihood x observers (fst cw)
             / Rsum (map (fun cw' => snd cw' * likelihood x observers (fst cw'))
                         ocd)))
         ocd)).
Proof.
  intros Hd Hne Hpos Hlik.
  pose proof (py_sum_positive ocd Hne Hpos) as Ht.
  destruct (do_naive_bayes_prediction_total x ocd observers Hd Ht) as [_ ->].
  do 2 f_equal.
  change (map (score x observers (py_sum (values ocd))) ocd)
    with (map (fun cw => (fst cw,
                          snd (score x observers (py_sum (values ocd)) cw)))
              ocd).
  apply (softmax_of_weights fst
           (fun cw => snd (score x observers (py_sum (values ocd)) cw))
           (fun cw => snd cw * likelihood x observers (fst cw))
           (py_sum (values ocd)) ocd Ht); [|exact Hne].
  intros [c w] Hin. unfold score. cbn [fst snd].
  rewrite Forall_forall in Hpos. pose proof (Hpos _ Hin) as Hw.
  cbn [snd] in Hw. rewrite (Rltb_true _ _ Hw).
  destruct (exp_evidence x observers c (Hlik c w Hin)) as [He _].
  rewrite exp_plus, He, exp_ln by (apply Rdiv_lt_0_compat; assumption).
  field. lra.
Qed.

Lemma evidence_unobserved x observers c :
  (forall a o, In (a, o) observers -> dict_get x a = None) ->
  evidence x observers c = [].
Proof.
  induction observers as [|[a o] rest IH]; intros Hno; cbn [evidence];
    [reflexivity|].
  rewrite (Hno a o) by now left.
  apply IH. intros a' o' Hin. apply (Hno a' o'). now right.
Qed.

(** Without evidence (no observer at all, or none whose attribute occurs in
    [x]) and with positive weights only, the posterior is, under exact real
    arithmetic, the prior, normalised: each weight divided by the total
    weight. *)
Theorem posterior_without_evidence_is_prior x ocd observers :
  is_dict ocd -> ocd <> [] ->
  Forall (fun cw => 0 < snd cw) ocd ->
  (forall a o, In (a, o) observers -> dict_get x a = None) ->
  do_naive_bayes_prediction x ocd observers =
  Ret (Some (map (fun cw => (fst cw, snd cw / py_sum (values ocd))) ocd)).
Proof.
  intros Hd Hne Hpos Hno.
  pose proof (py_sum_positive ocd Hne Hpos) as Ht.
  destruct (do_naive_bayes_prediction_total x ocd observers Hd Ht) as [_ ->].
  do 2 f_equal.
  change (map (score x observers (py_sum (values ocd))) ocd)
    with (map (fun cw => (fst cw,
                          snd (score x observers (py_sum (values ocd)) cw)))
              ocd).
  rewrite (softmax_of_weights fst
             (fun cw => snd (score x observers (py_sum (values ocd)) cw))
             snd (py_sum (values ocd)) ocd Ht); [| |exact Hne].
  - rewrite py_sum_Rsum. reflexivity.
  - intros [c w] Hin. unfold score. cbn [fst snd].
    rewrite Forall_forall in Hpos. pose proof (Hpos _ Hin) as Hw.
    cbn [snd] in Hw. rewrite (Rltb_true _ _ Hw).
    rewrite (evidence_unobserved x observers c Hno).
    unfold Rsum; cbn [fold_right]. rewrite Rplus_0_r.
    apply exp_ln. apply Rdiv_lt_0_compat; assumption.
Qed.


Lemma class_loop_raises x observers total : forall items votes log,
  total < 0 ->
  Exists (fun cw => 0 < snd cw) items ->
  class_loop x observers total items votes log = Raise ValueError.
Proof.
  induction items as [|[c w] rest IH]; intros votes log Ht Hex;
    [inversion Hex|].
  cbn [class_loop]. destruct (Rltb 0 w) eqn:Ew.
  - apply Rltb_spec in Ew. unfold math_log.
    rewrite Rltb_false; [reflexivity|].
    unfold Rdiv. apply Rlt_le.
    assert (Hinv : / total < 0) by now apply Rinv_lt_0_compat.
    replace 0 with (w * 0) by ring.
    apply Rmult_lt_compat_l; assumption.
  - apply IH; [exact Ht|].
    inversion Hex as [? ? Hw|? ? Hrest]; subst; [|exact Hrest].
    cbn [snd] in Hw. apply Rltb_true in Hw. congruence.
Qed.

(** A negative total weight: if the weights sum to less than 0 while some
    class has a positive weight, the call does not return; [math.log] of the
    negative ratio raises [ValueError]. *)
Theorem negative_total_raises x ocd observers :
  py_sum (values ocd) < 0 ->
  Exists (fun cw => 0 < snd cw) ocd ->
  do_naive_bayes_prediction x ocd observers = Raise ValueError.
Proof.
  intros Ht Hex.
  rewrite do_naive_bayes_prediction_past_guard.
  - unfold log_votes. now rewrite class_loop_raises.
  - intros ->. inversion Hex.
  - lra.
Qed.

Lemma dict_get_map_values {V W : Type} (f : V -> W) (d : dict V) (k : Z) :
  dict_get (map (fun kv => (fst kv, f (snd kv))) d) k
  = option_map f (dict_get d k).
Proof.
  induction d as [|[k' v] d IH]; cbn [map dict_get fst snd]; [reflexivity|].
  destruct (k =? k')%Z; [reflexivity|exact IH].
Qed.

Lemma dict_get_map_keyed {V W : Type} (f : Z * V -> W) (d : dict V) (k : Z) :
  dict_get (map (fun kv => (fst kv, f kv)) d) k
  = option_map (fun v => f (k, v)) (dict_get d k).
Proof.
  induction d as [|[k' v] d IH]; cbn [map dict_get fst snd]; [reflexivity|].
  destruct (Z.eqb_spec k k') as [->|_]; [reflexivity|exact IH].
Qed.

Lemma dict_get_some_in {V : Type} (d : dict V) (k : Z) (v : V) :
  dict_get d k = Some v -> In (k, v) d.
Proof.
  induction d as [|[k' v'] d IH]; cbn [dict_get]; [discriminate|].
  destruct (Z.eqb_spec k k') as [->|_].
  - intros [= ->]. now left.
  - intros Hget. right. now apply IH.
Qed.

Lemma weight_le_total (ocd : dict R) (c : Z) (w : R) :
  Forall (fun cw => 0 <= snd cw) ocd -> In (c, w) ocd ->
  w <= py_sum (values ocd).
Proof.
  rewrite py_sum_Rsum. unfold values, Rsum.
  induction 1 as [|[c' w'] rest Hw Hrest IH]; intros Hin; [destruct Hin|].
  cbn [map snd fold_right] in *.
  assert (Hnn : 0 <= fold_right Rplus 0 (map snd rest)).
  { apply (Rsum_nonneg (map snd rest)). rewrite Forall_map. exact Hrest. }
  destruct Hin as [[= -> ->]|Hin]; [lra|].
  specialize (IH Hin). lra.
Qed.

Lemma ln_nonpos (t : R) : 0 < t -> t <= 1 -> ln t <= 0.
Proof.
  intros Hpos [Hlt|Heq]; [|rewrite Heq, ln_1; lra].
  rewrite <- ln_1. left. now apply ln_increasing.
Qed.

Lemma evidence_nonpos x observers (c : Z) :
  (forall a o v cl, In (a, o) observers -> o v cl <= 1) ->
  Rsum (evidence x observers c) <= 0.
Proof.
  induction observers as [|[a o] rest IH]; intros Hle; cbn [evidence].
  - unfold Rsum; cbn; lra.
  - assert (IH' : Rsum (evidence x rest c) <= 0).
    { apply IH. intros a' o' v cl Hin. apply (Hle a' o'). now right. }
    destruct (dict_get x a) as [v|]; [|exact IH'].
    unfold Rsum in *. cbn [fold_right].
    destruct (Rltb 0 (o v c)) eqn:E; [|lra].
    apply Rltb_spec in E.
    assert (Hln : ln (o v c) <= 0).
    { apply ln_nonpos; [exact E|]. apply (Hle a o). now left. }
    lra.
Qed.

Lemma score_nonpos x ocd observers (c : Z) (w : R) :
  Forall (fun cw => 0 <= snd cw) ocd -> In (c, w) ocd ->
  (forall a o v cl, In (a, o) observers -> o v cl <= 1) ->
  snd (score x observers (py_sum (values ocd)) (c, w)) <= 0.
Proof.
  intros Hnn Hin Hle. unfold score. cbn [fst snd].
  destruct (Rltb 0 w) eqn:E; [|lra].
  apply Rltb_spec in E.
  pose proof (weight_le_total ocd c w Hnn Hin) as Hw.
  pose proof (evidence_nonpos x observers c Hle) as He.
  assert (Hln : ln (w / py_sum (values ocd)) <= 0).
  { apply ln_nonpos.
    - apply Rdiv_lt_0_compat; lra.
    - apply (Rmult_le_reg_r (py_sum (values ocd))); [lra|].
      unfold Rdiv. rewrite Rmult_assoc, Rinv_l by lra. lra. }
  lra.
Qed.

(** A class that was never observed is never the less probable one: with
    non-negative weights and observers that report probabilities (no
    likelihood above 1), a class of weight 0 gets a probability at least that
    of every other class.  Its score is the 0.0 of line 40, the score of
    certainty, while every other score is a sum of logarithms of numbers up
    to 1. *)
Theorem unseen_class_is_most_probable x ocd observers post
    (c0 c : Z) (p0 p : R) :
  is_dict ocd ->
  Forall (fun cw => 0 <= snd cw) ocd ->
  (forall a o v cl, In (a, o) observers -> o v cl <= 1) ->
  do_naive_bayes_prediction x ocd observers = Ret (Some post) ->
  dict_get ocd c0 = Some 0 ->
  dict_get post c0 = Some p0 -> dict_get post c = Some p ->
  p <= p0.
Proof.
  intros Hd Hnn Hle Hrun Hc0 Hp0 Hp.
  apply do_naive_bayes_prediction_some in Hrun as (Hne & _ & ->);
    [|exact Hd].
  set (total := py_sum (values ocd)) in *.
  set (votes := map (score x observers total) ocd) in *.
  assert (Hpos : 0 < Rsum (map exp (values votes))).
  { apply Rsum_map_exp_pos. subst votes.
    destruct ocd; [congruence|discriminate]. }
  assert (Hvotes : forall k,
            dict_get votes k
            = option_map (fun w => snd (score x observers total (k, w)))
                         (dict_get ocd k)).
  { intros k. subst votes.
    rewrite <- (dict_get_map_keyed
                  (fun kv => snd (score x observers total kv)) ocd k).
    f_equal. }
  unfold softmax in Hp0, Hp.
  rewrite (dict_get_map_values
             (fun v => exp v / Rsum (map exp (values votes)))) in Hp0, Hp.
  rewrite Hvotes in Hp0, Hp. rewrite Hc0 in Hp0.
  destruct (dict_get ocd c) as [w|] eqn:Hc; [|discriminate].
  cbn [option_map] in Hp0, Hp.
  assert (H0 : snd (score x observers total (c0, 0)) = 0).
  { unfold score. cbn [fst snd]. now rewrite Rltb_false by lra. }
  rewrite H0 in Hp0.
  pose proof (score_nonpos x ocd observers c w Hnn
                (dict_get_some_in _ _ _ Hc) Hle) as Hv.
  fold total in Hv.
  injection Hp0 as <-. injection Hp as <-.
  assert (Hinv : 0 < / Rsum (map exp (values votes)))
    by now apply Rinv_0_lt_compat.
  unfold Rdiv. apply Rmult_le_compat_r; [lra|].
  destruct Hv as [Hlt|Heq];
    [left; apply exp_increasing; exact Hlt | right; apply f_equal; exact Heq].
Qed.

(** The normalisation does not reverse the order of the scores: of two
    classes, one whose log-score is not above the other's gets a probability
    that is not above the other's, so a class with the highest score has the
    highest probability. *)
Theorem posterior_keeps_score_order x ocd observers votes log post
    (c1 c2 : Z) (v1 v2 p1 p2 : R) :
  log_votes x ocd observers = Ret (votes, log) ->
  do_naive_bayes_prediction x ocd observers = Ret (Some post) ->
  dict_get votes c1 = Some v1 -> dict_get votes c2 = Some v2 ->
  dict_get post c1 = Some p1 -> dict_get post c2 = Some p2 ->
  v1 <= v2 -> p1 <= p2.
Proof.
  intros Hl Hrun Hv1 Hv2 Hp1 Hp2 Hle.
  assert (Hpost : post = softmax votes).
  { unfold do_naive_bayes_prediction in Hrun.
    destruct ocd as [|cw rest]; [discriminate|].
    destruct (Reqb _ 0); [discriminate|].
    rewrite Hl in Hrun. cbn [bind fst] in Hrun.
    assert (Hne : votes <> []) by (intros ->; discriminate).
    rewrite (normalise_softmax votes Hne) in Hrun.
    cbn [bind] in Hrun. congruence. }
  subst post. unfold softmax in Hp1, Hp2.
  rewrite (dict_get_map_values
             (fun v => exp v / Rsum (map exp (values votes)))) in Hp1, Hp2.
  rewrite Hv1 in Hp1. rewrite Hv2 in Hp2. cbn in Hp1, Hp2.
  injection Hp1 as <-. injection Hp2 as <-.
  assert (Hpos : 0 < Rsum (map exp (values votes))).
  { apply Rsum_map_exp_pos. destruct votes; [discriminate|discriminate]. }
  assert (Hinv : 0 < / Rsum (map exp (values votes)))
    by now apply Rinv_0_lt_compat.
  unfold Rdiv. apply Rmult_le_compat_r; [lra|].
  destruct Hle as [Hlt|Heq];
    [left; now apply exp_increasing | right; now rewrite Heq].
Qed.


(** The prior with every weight multiplied by [k]. *)
Definition scale (k : R) (ocd : dict R) : dict R :=
  map (fun cw => (fst cw, k * snd cw)) ocd.

Lemma py_sum_scale (k : R) (ocd : dict R) :
  py_sum (values (scale k ocd)) = k * py_sum (values ocd).
Proof.
  rewrite !py_sum_Rsum. unfold scale, values, Rsum.
  induction ocd as [|[c w] rest IH]; cbn [map snd fold_right]; [ring|].
  cbn [map snd] in IH. rewrite IH. ring.
Qed.

Lemma Rltb_scale (k w : R) : 0 < k -> Rltb 0 (k * w) = Rltb 0 w.
Proof.
  intros Hk. destruct (Rltb 0 w) eqn:E.
  - apply Rltb_spec in E. apply Rltb_true. now apply Rmult_lt_0_compat.
  - apply Rltb_false. destruct (Rle_or_lt w 0) as [Hle|Hlt].
    + replace 0 with (k * 0) by ring. apply Rmult_le_compat_l; lra.
    + apply Rltb_true in Hlt. congruence.
Qed.

Lemma class_loop_scale x observers (k total : R) :
  0 < k -> total <> 0 ->
  forall items votes log,
    class_loop x observers (k * total) (scale k items) votes log
    = class_loop x observers total items votes log.
Proof.
  intros Hk Ht. induction items as [|[c w] rest IH]; intros votes log;
    cbn [scale map class_loop fst snd]; [reflexivity|].
  fold (scale k rest). rewrite (Rltb_scale k w Hk).
  replace (k * w / (k * total)) with (w / total) by (field; split; lra).
  destruct (Rltb 0 w); [|apply IH].
  destruct (math_log (w / total)); cbn [bind]; try reflexivity.
  destruct (likelihoods x observers c a log). apply IH.
Qed.

(** Only the proportions of the prior weights matter: under exact real
    arithmetic, multiplying all of them by the same positive factor changes
    nothing, whether the call returns a distribution, returns [None] or
    raises. *)
Theorem prior_scale_is_irrelevant x ocd observers (k : R) :
  0 < k ->
  do_naive_bayes_prediction x (scale k ocd) observers
  = do_naive_bayes_prediction x ocd observers.
Proof.
  intros Hk. unfold do_naive_bayes_prediction, log_votes.
  rewrite py_sum_scale.
  destruct ocd as [|[c w] rest]; [reflexivity|].
  change (scale k ((c, w) :: rest)) with ((c, k * w) :: scale k rest).
  destruct (Reqb (py_sum (values ((c, w) :: rest))) 0) eqn:E.
  - apply Reqb_spec in E. rewrite E, Rmult_0_r.
    now rewrite (proj2 (Reqb_spec 0 0) eq_refl).
  - assert (Ht : py_sum (values ((c, w) :: rest)) <> 0).
    { intros Hz. apply Reqb_spec in Hz. congruence. }
    assert (E' : Reqb (k * py_sum (values ((c, w) :: rest))) 0 = false).
    { apply not_true_is_false. intros E2.
      apply Reqb_spec in E2. apply Rmult_integral in E2. lra. }
    rewrite E'.
    change ((c, k * w) :: scale k rest) with (scale k ((c, w) :: rest)).
    now rewrite (class_loop_scale x observers k _ Hk Ht).
Qed.

(** The scores, without the log of queries. *)
Definition votes_of (o : outcome (dict R * list query)) : outcome (dict R) :=
  do vl <- o; Ret (fst vl).

Lemma class_loop_votes_congr x observers observers' total :
  (forall c, Rsum (evidence x observers c) = Rsum (evidence x observers' c)) ->
  forall items votes log log',
    votes_of (class_loop x observers total items votes log)
    = votes_of (class_loop x observers' total items votes log').
Proof.
  intros Hev. induction items as [|[c w] rest IH]; intros votes log log';
    cbn [class_loop]; [reflexivity|].
  destruct (Rltb 0 w); [|apply IH].
  destruct (math_log (w / total)); cbn [bind]; try reflexivity.
  rewrite !likelihoods_spec, Hev. apply IH.
Qed.

Lemma prediction_congr x ocd observers observers' :
  (forall c, Rsum (evidence x observers c) = Rsum (evidence x observers' c)) ->
  do_naive_bayes_prediction x ocd observers
  = do_naive_bayes_prediction x ocd observers'.
Proof.
  intros Hev. unfold do_naive_bayes_prediction, log_votes.
  destruct ocd as [|cw rest]; [reflexivity|].
  destruct (Reqb _ 0); [reflexivity|].
  pose proof (class_loop_votes_congr x observers observers'
                (py_sum (values (cw :: rest))) Hev (cw :: rest) [] [] [])
    as Hc.
  unfold votes_of in Hc.
  destruct (class_loop x observers _ (cw :: rest) [] []) as [[v l]| |];
    destruct (class_loop x observers' _ (cw :: rest) [] []) as [[v' l']| |];
    cbn [bind fst] in Hc |- *; congruence.
Qed.

Lemma evidence_app x (l1 l2 : dict (observer Val)) c :
  evidence x (l1 ++ l2) c = evidence x l1 c ++ evidence x l2 c.
Proof.
  induction l1 as [|[a o] l1 IH]; cbn [app evidence]; [reflexivity|].
  destruct (dict_get x a); [|exact IH]. cbn [app]. now rewrite IH.
Qed.

Lemma asked_present x observers c a :
  In (a, c) (asked x observers c) ->
  exists o v, In (a, o) observers /\ dict_get x a = Some v.
Proof.
  induction observers as [|[a0 o0] rest IH]; cbn [asked]; [contradiction|].
  destruct (dict_get x a0) as [v|] eqn:E.
  - intros [[= <-]|Hin].
    + exists o0, v. split; [now left|exact E].
    + destruct (IH Hin) as (o & v' & Ho & Hv). exists o, v'.
      split; [now right|exact Hv].
  - intros Hin. destruct (IH Hin) as (o & v' & Ho & Hv). exists o, v'.
    split; [now right|exact Hv].
Qed.

(** An observer whose attribute does not occur in [x] is skipped: the result
    is the same with or without it, and it is never asked. *)
Theorem observer_of_absent_attribute_is_skipped x ocd
    (before after : dict (observer Val)) (att_idx : Z) (obs : observer Val) :
  dict_get x att_idx = None ->
  do_naive_bayes_prediction x ocd (before ++ (att_idx, obs) :: after)
  = do_naive_bayes_prediction x ocd (before ++ after) /\
  forall c, ~ In (att_idx, c)
              (asked x (before ++ (att_idx, obs) :: after) c).
Proof.
  intros Hx. split.
  - apply prediction_congr. intros c.
    rewrite !evidence_app. cbn [evidence]. now rewrite Hx.
  - intros c Hin. apply asked_present in Hin as (o & v & _ & Hv). congruence.
Qed.

(** The fallback for a likelihood that is not positive: it adds nothing to
    the score, so an observer that reports no positive likelihood, for any
    value and class, leaves the result as it is without it. *)
Theorem observer_without_positive_likelihood_adds_nothing x ocd
    (before after : dict (observer Val)) (att_idx : Z) (obs : observer Val) :
  (forall v c, obs v c <= 0) ->
  do_naive_bayes_prediction x ocd (before ++ (att_idx, obs) :: after)
  = do_naive_bayes_prediction x ocd (before ++ after).
Proof.
  intros Hobs. apply prediction_congr. intros c.
  rewrite !evidence_app, !Rsum_app. cbn [evidence].
  destruct (dict_get x att_idx) as [v|]; [|reflexivity].
  rewrite (Rltb_false _ _ (Hobs v c)).
  unfold Rsum; cbn [fold_right]. lra.
Qed.

End EstimatorProperties.

(** ** Concrete priors *)

(** The prior [{0: 0, 1: 2}], the record [{7: tt}] and one observer, for
    attribute 7, that answers 1/2 for every value and class. *)
Definition half_observer : observer unit := fun _ _ => 1 / 2.

Lemma zero_and_two_is_dict : is_dict [(0%Z, 0); (1%Z, 2)].
Proof. unfold is_dict. cbn. repeat constructor; cbn; intuition lia. Qed.

Lemma zero_and_two_total : py_sum (values [(0%Z, 0); (1%Z, 2)]) = 2.
Proof. unfold py_sum. cbn. lra. Qed.

Lemma zero_weight_scores_are_zero_witness :
  exists votes log,
    log_votes [(7%Z, tt)] [(0%Z, 0); (1%Z, 2)] [(7%Z, half_observer)]
    = Ret (votes, log) /\
    keys votes = [0%Z; 1%Z] /\
    dict_get votes 0 = Some 0 /\
    (forall a, ~ In (a, 0%Z) log) /\
    dict_get votes 1 = Some (ln (2 / 2) + (ln (1 / 2) + 0)) /\
    In (7%Z, 1%Z) log.
Proof.
  destruct (do_naive_bayes_prediction_total unit [(7%Z, tt)]
              [(0%Z, 0); (1%Z, 2)] [(7%Z, half_observer)]
              zero_and_two_is_dict) as [Hl _].
  { rewrite zero_and_two_total. lra. }
  eexists _, _. split; [exact Hl|].
  destruct (proj2 (zero_weight_scores_are_zero unit [(7%Z, tt)] _
                     [(7%Z, half_observer)] zero_and_two_is_dict) _ _ Hl)
    as (Hk & Hzero & Hpos & _).
  split; [exact Hk|].
  destruct (Hzero 0%Z) as [Hz0 Hz1]; [now left|].
  destruct (Hpos 1%Z 2) as [Hp0 Hp1]; [right; now left | lra |].
  split; [exact Hz0|]. split; [exact Hz1|]. split.
  - rewrite Hp0, zero_and_two_total. unfold Rsum, half_observer.
    cbn [evidence dict_get Z.eqb Pos.eqb fold_right].
    rewrite Rltb_true by lra. reflexivity.
  - apply Hp1. cbn. now left.
Defined.

Lemma posterior_is_a_distribution_witness :
  exists post,
    do_naive_bayes_prediction [(7%Z, tt)] [(0%Z, 0); (1%Z, 2)]
      [(7%Z, half_observer)] = Ret (Some post) /\
    keys post = [0%Z; 1%Z] /\
    Forall (fun p => 0 <= p <= 1) (values post) /\
    py_sum (values post) = 1.
Proof.
  destruct (do_naive_bayes_prediction_total unit [(7%Z, tt)]
              [(0%Z, 0); (1%Z, 2)] [(7%Z, half_observer)]
              zero_and_two_is_dict) as [_ Hp].
  { rewrite zero_and_two_total. lra. }
  eexists. split; [exact Hp|].
  destruct (proj2 (posterior_is_a_distribution unit [(7%Z, tt)] _
                     [(7%Z, half_observer)] zero_and_two_is_dict) _ Hp)
    as (_ & Hk & Hr & Hs).
  split; [exact Hk|]. split; [exact Hr|exact Hs].
Defined.

(** Weights that cancel: the prior [{0: 1, 1: -1}]. *)
Lemma none_iff_empty_or_zero_total_witness :
  do_naive_bayes_prediction (@nil (Z * unit)) [(0%Z, 1); (1%Z, -1)] []
  = Ret None.
Proof.
  apply (proj1 (none_iff_empty_or_zero_total unit [] [(0%Z, 1); (1%Z, -1)] [])).
  right. unfold py_sum. cbn. lra.
Defined.


(** ** Concrete priors for the further properties *)

Definition one_and_three : dict R := [(0%Z, 1); (1%Z, 3)].

Lemma one_and_three_is_dict : is_dict one_and_three.
Proof. unfold is_dict. cbn. repeat constructor; cbn; intuition lia. Qed.

Lemma one_and_three_positive : Forall (fun cw : Z * R => 0 < snd cw) one_and_three.
Proof. repeat constructor; cbn; lra. Qed.

(** An observer that never reports a positive likelihood. *)
Definition silent_observer : observer unit := fun _ _ => 0.

Lemma posterior_is_bayes_rule_witness :
  do_naive_bayes_prediction [(7%Z, tt)] one_and_three [(7%Z, half_observer)]
  = Ret (Some
      (map (fun cw : Z * R =>
              (fst cw,
               snd cw * likelihood unit [(7%Z, tt)] [(7%Z, half_observer)] (fst cw)
               / Rsum (map (fun cw' : Z * R =>
                              snd cw' * likelihood unit [(7%Z, tt)]
                                          [(7%Z, half_observer)] (fst cw'))
                           one_and_three)))
           one_and_three)).
Proof.
  apply (posterior_is_bayes_rule unit).
  - exact one_and_three_is_dict.
  - discriminate.
  - exact one_and_three_positive.
  - intros c w _. cbn. unfold half_observer. split; [lra|exact I].
Defined.

Lemma posterior_without_evidence_is_prior_witness :
  do_naive_bayes_prediction [(7%Z, tt)] one_and_three [(8%Z, half_observer)]
  = Ret (Some (map (fun cw : Z * R => (fst cw, snd cw / py_sum (values one_and_three)))
                   one_and_three)).
Proof.
  apply (posterior_without_evidence_is_prior unit).
  - exact one_and_three_is_dict.
  - discriminate.
  - exact one_and_three_positive.
  - intros a o [[= <- _]|[]]. reflexivity.
Defined.

Lemma negative_total_raises_witness :
  do_naive_bayes_prediction (@nil (Z * unit)) [(0%Z, 1); (1%Z, -3)] []
  = Raise ValueError.
Proof.
  apply (negative_total_raises unit).
  - unfold py_sum. cbn. lra.
  - apply Exists_cons_hd. cbn. lra.
Defined.

Lemma zero_and_two_nonneg :
  Forall (fun cw : Z * R => 0 <= snd cw) [(0%Z, 0); (1%Z, 2)].
Proof. repeat constructor; cbn; lra. Qed.

Lemma half_observer_le_1 (a : Z) (o : observer unit) (v : unit) (cl : Z) :
  In (a, o) [(7%Z, half_observer)] -> o v cl <= 1.
Proof. intros [[= _ <-]|[]]. unfold half_observer. lra. Qed.

Lemma unseen_class_is_most_probable_witness :
  exists post p0 p,
    do_naive_bayes_prediction [(7%Z, tt)] [(0%Z, 0); (1%Z, 2)]
      [(7%Z, half_observer)] = Ret (Some post) /\
    dict_get post 0%Z = Some p0 /\ dict_get post 1%Z = Some p /\
    p <= p0.
Proof.
  destruct (do_naive_bayes_prediction_total unit [(7%Z, tt)]
              [(0%Z, 0); (1%Z, 2)] [(7%Z, half_observer)]
              zero_and_two_is_dict) as [_ Hp].
  { rewrite zero_and_two_total. lra. }
  eexists _, _, _. split; [exact Hp|].
  split; [reflexivity|]. split; [reflexivity|].
  exact (unseen_class_is_most_probable unit _ _ _ _ 0%Z 1%Z _ _
           zero_and_two_is_dict zero_and_two_nonneg half_observer_le_1
           Hp eq_refl eq_refl eq_refl).
Defined.

Lemma posterior_keeps_score_order_witness :
  let x := [(7%Z, tt)] in
  let observers := [(7%Z, half_observer)] in
  let ocd := [(0%Z, 0); (1%Z, 2)] in
  let votes := map (score x observers (py_sum (values ocd))) ocd in
  let v1 := snd (score x observers (py_sum (values ocd)) (1%Z, 2)) in
  let v2 := snd (score x observers (py_sum (values ocd)) (0%Z, 0)) in
  let total := Rsum (map exp (values votes)) in
  do_naive_bayes_prediction x ocd observers = Ret (Some (softmax votes)) /\
  v1 <= v2 /\
  exp v1 / total <= exp v2 / total.
Proof.
  intros x observers ocd votes v1 v2 total.
  destruct (do_naive_bayes_prediction_total unit x ocd observers
              zero_and_two_is_dict) as [Hl Hp].
  { subst ocd. rewrite zero_and_two_total. lra. }
  assert (Hle : v1 <= v2).
  { assert (H2 : v2 = 0).
    { subst v2. unfold score. cbn [fst snd]. now rewrite Rltb_false by lra. }
    rewrite H2. subst v1.
    apply (score_nonpos unit x ocd observers 1%Z 2 zero_and_two_nonneg).
    - right. now left.
    - exact half_observer_le_1. }
  split; [exact Hp|]. split; [exact Hle|].
  exact (posterior_keeps_score_order unit x ocd observers votes _
           (softmax votes) 1%Z 0%Z v1 v2 (exp v1 / total) (exp v2 / total)
           Hl Hp eq_refl eq_refl eq_refl eq_refl Hle).
Defined.

Lemma prior_scale_is_irrelevant_witness :
  do_naive_bayes_prediction [(7%Z, tt)] [(0%Z, 2 * 1); (1%Z, 2 * 3)]
    [(7%Z, half_observer)]
  = do_naive_bayes_prediction [(7%Z, tt)] one_and_three
      [(7%Z, half_observer)].
Proof.
  apply (prior_scale_is_irrelevant unit [(7%Z, tt)] one_and_three
           [(7%Z, half_observer)] 2).
  lra.
Defined.

Lemma observer_of_absent_attribute_is_skipped_witness :
  do_naive_bayes_prediction [(7%Z, tt)] one_and_three
    [(7%Z, half_observer); (8%Z, half_observer)]
  = do_naive_bayes_prediction [(7%Z, tt)] one_and_three
      [(7%Z, half_observer)].
Proof.
  apply (proj1 (observer_of_absent_attribute_is_skipped unit [(7%Z, tt)]
                  one_and_three [(7%Z, half_observer)] [] 8%Z half_observer
                  eq_refl)).
Defined.

Lemma observer_without_positive_likelihood_adds_nothing_witness :
  do_naive_bayes_prediction [(6%Z, tt); (7%Z, tt)] one_and_three
    [(6%Z, silent_observer); (7%Z, half_observer)]
  = do_naive_bayes_prediction [(6%Z, tt); (7%Z, tt)] one_and_three
      [(7%Z, half_observer)].
Proof.
  apply (observer_without_positive_likelihood_adds_nothing unit
           [(6%Z, tt); (7%Z, tt)] one_and_three [] [(7%Z, half_observer)]
           6%Z silent_observer).
  intros v c. unfold silent_observer. lra.
Defined.

End NaiveBayes.
